(** * Organization membership reconciliation of the Grafana provider

    A shallow embedding of [grafana/resource_organization.go]: the
    functions [collectUsers], [userDiff], [userMap], [addUsers],
    [updateUsers], [removeUsers], [ReadUsers], [CreateUsers] and
    [UpdateUsers], with the Grafana API client and Terraform's
    [schema.ResourceData] taken as the interfaces the code uses. *)

From Stdlib Require Import ZArith String Ascii List Bool Lia Permutation.
From stdpp Require Import base tactics option list gmap strings fin_maps.

Set Warnings "-clear-no-such-hyp".

Local Open Scope string_scope.
Local Open Scope list_scope.
Local Open Scope Z_scope.

(** ** Strings: the pieces of Go's [strings] and [strconv] the code calls *)

Module GoStrings.

Definition code (c : ascii) : Z := Z.of_N (N_of_ascii c).

Definition is_upper (c : ascii) : bool := (65 <=? code c) && (code c <=? 90).
Definition is_lower (c : ascii) : bool := (97 <=? code c) && (code c <=? 122).
Definition is_digit (c : ascii) : bool := (48 <=? code c) && (code c <=? 57).

Definition to_upper (c : ascii) : ascii :=
  if is_lower c then ascii_of_N (Z.to_N (code c - 32)) else c.
Definition to_lower (c : ascii) : ascii :=
  if is_upper c then ascii_of_N (Z.to_N (code c + 32)) else c.

(** [isSeparator] of package strings, on bytes: ASCII letters, digits and
    the underscore do not separate words, every other ASCII byte does.
    Bytes from 128 on (parts of a multi-byte rune) are kept as they are
    and do not separate. *)
Definition isSeparator (c : ascii) : bool :=
  if 128 <=? code c then false
  else negb (is_upper c || is_lower c || is_digit c || (code c =? 95)).

Fixpoint Title_from (prev : ascii) (s : string) : string :=
  match s with
  | EmptyString => EmptyString
  | String c r =>
      String (if isSeparator prev then to_upper c else c) (Title_from c r)
  end.

(** [strings.Title]: the scan starts with [prev := ' ']. *)
Definition Title (s : string) : string := Title_from " "%char s.

Fixpoint ToLower (s : string) : string :=
  match s with
  | EmptyString => EmptyString
  | String c r => String (to_lower c) (ToLower r)
  end.

(** [role[:len(role)-1]] *)
Fixpoint drop_last (s : string) : string :=
  match s with
  | EmptyString => EmptyString
  | String c EmptyString => EmptyString
  | String c r => String c (drop_last r)
  end.

Fixpoint parse_digits (s : string) (acc : Z) : option Z :=
  match s with
  | EmptyString => Some acc
  | String c r =>
      if is_digit c then parse_digits r (acc * 10 + (code c - 48)) else None
  end.

(** [strconv.ParseInt(s, 10, 64)]: the value and whether an error came
    with it. A syntax error gives 0, a range error the nearest int64. *)
Definition ParseInt (s : string) : Z * bool :=
  let '(neg, body) :=
    match s with
    | String "+"%char r => (false, r)
    | String "-"%char r => (true, r)
    | _ => (false, s)
    end in
  match body with
  | EmptyString => (0, true)
  | _ =>
      match parse_digits body 0 with
      | None => (0, true)
      | Some un =>
          if negb neg && (2 ^ 63 <=? un) then (2 ^ 63 - 1, true)
          else if neg && (2 ^ 63 <? un) then (- 2 ^ 63, true)
          else (if neg then - un else un, false)
      end
  end.

End GoStrings.

(** ** Data *)

(** A Go [error], by its message. *)
Definition error := string.

(** [gapi.User] and [gapi.OrgUser]; the provider reads [Id] and [Email] of
    the first, [Email], [Login] and [Role] of the second. *)
Record User := mkUser { user_Id : Z; user_Email : string }.
Record OrgUser := mkOrgUser
  { ou_UserId : Z; ou_Email : string; ou_Login : string; ou_Role : string }.

(** Go's [range] over a map visits every entry once, in an order the
    language leaves open.  A [MapOrder] fixes one such order for every
    map; the functions below take it as a parameter, and what is proved
    of them holds for every order. *)
Record MapOrder := mkMapOrder
  { range : forall V : Type, gmap string V -> list (string * V);
    range_perm : forall V (m : gmap string V), range V m ≡ₚ map_to_list m }.
Arguments range _ {V} _.

Definition canonical_order : MapOrder :=
  {| range := fun V m => map_to_list m;
     range_perm := fun V m => reflexivity _ |}.

Definition reversed_order : MapOrder :=
  {| range := fun V m => reverse (map_to_list m);
     range_perm := fun V m => reverse_Permutation _ |}.

(** Modelled from the spec: what the caller hands to a pass, Terraform's
    [schema.ResourceData], whose type is not among the sources: the
    organization id, the exempt admin login and the three lists of emails,
    which are also what a read reports back.  As the code uses it, each
    list has a prior value (the state) and a current one (what the
    configuration declares, or what [Set] wrote), and [GetChange] returns
    both.  [Set] on a key that is not a list attribute of the schema
    fails and changes nothing; the code drops that error. *)
Record ResourceData := mkResourceData
  { rd_id : string;
    rd_admin_user : string;
    rd_old : gmap string (list string);
    rd_new : gmap string (list string) }.

Definition list_attrs : list string := ["admins"; "editors"; "viewers"].

(** The roles Grafana knows for a member of an organization. *)
Definition three_roles : list string := ["Admin"; "Editor"; "Viewer"].

Definition GetChange (k : string) (d : ResourceData)
  : list string * list string :=
  (default [] (rd_old d !! k), default [] (rd_new d !! k)).

Definition Set_ (k : string) (v : list string) (d : ResourceData)
  : ResourceData :=
  if bool_decide (k ∈ list_attrs)
  then {| rd_id := rd_id d; rd_admin_user := rd_admin_user d;
          rd_old := rd_old d; rd_new := <[k := v]> (rd_new d) |}
  else d.

(** [orgId, _ := strconv.ParseInt(d.Id(), 10, 64)] *)
Definition orgId_of (d : ResourceData) : Z := fst (GoStrings.ParseInt (rd_id d)).

(** ** collectUsers *)

(** The inner loops: [users[u] = roleName] for every [u] of a list. *)
Definition assign_all (roleName : string) (us : list string)
  (users : gmap string string) : gmap string string :=
  foldl (fun m u => <[u := roleName]> m) users us.

Definition roles : list string := ["admins"; "editors"; "viewers"].

Definition roleName_of (role : string) : string :=
  GoStrings.Title (GoStrings.drop_last role).

Definition collectUsers_step (d : ResourceData)
  (acc : gmap string string * gmap string string) (role : string)
  : gmap string string * gmap string string :=
  let roleName := roleName_of role in
  let '(old, new) := GetChange role d in
  (assign_all roleName old (fst acc), assign_all roleName new (snd acc)).

Definition collectUsers (d : ResourceData)
  : gmap string string * gmap string string :=
  foldl (collectUsers_step d) (∅, ∅) roles.

(** The lists of an attribute, before and after. *)
Definition old_list (d : ResourceData) (k : string) : list string :=
  fst (GetChange k d).
Definition new_list (d : ResourceData) (k : string) : list string :=
  snd (GetChange k d).

(** ** userDiff *)

Section Differ.
Variable ord : MapOrder.

(** First loop: entries of [newUsers], filling [add] and [update]. *)
Definition diff_new_step (oldUsers : gmap string string)
  (acc : gmap string string * gmap string string) (e : string * string)
  : gmap string string * gmap string string :=
  let '(user, role) := e in
  match oldUsers !! user with
  | None => (<[user := role]> (fst acc), snd acc)
  | Some oldRole =>
      if bool_decide (oldRole ≠ role)
      then (fst acc, <[user := role]> (snd acc))
      else acc
  end.

(** Second loop: keys of [oldUsers], appended to [remove]. *)
Definition diff_old_step (newUsers : gmap string string)
  (remove : list string) (e : string * string) : list string :=
  match newUsers !! fst e with
  | None => remove ++ [fst e]
  | Some _ => remove
  end.

Definition userDiff (oldUsers newUsers : gmap string string)
  : gmap string string * gmap string string * list string :=
  let '(add, update) :=
    foldl (diff_new_step oldUsers) (∅, ∅) (range ord newUsers) in
  let remove := foldl (diff_old_step newUsers) [] (range ord oldUsers) in
  (add, update, remove).

(** The three results by name. *)
Definition toAdd (oldUsers newUsers : gmap string string)
  : gmap string string := (userDiff oldUsers newUsers).1.1.
Definition toUpdate (oldUsers newUsers : gmap string string)
  : gmap string string := (userDiff oldUsers newUsers).1.2.
Definition toRemove (oldUsers newUsers : gmap string string)
  : list string := (userDiff oldUsers newUsers).2.

End Differ.

(** ** The remote service and the effects of the provider *)

(** The Grafana client ([gapi.Client], a package of its own) over a remote
    state [W]: the five operations the provider calls, a parameter of all
    that follows.  The two list queries read the remote state; the three
    mutations may change it.  Each operation returns a Go [error] or
    none. *)
Record Client (W : Type) := mkClient
  { Users : W -> list User * option error;
    OrgUsers : Z -> W -> list OrgUser * option error;
    AddOrgUser : Z -> string -> string -> W -> option error * W;
    UpdateOrgUser : Z -> Z -> string -> W -> option error * W;
    RemoveOrgUser : Z -> Z -> W -> option error * W }.
Arguments Users {W} _ _.
Arguments OrgUsers {W} _ _ _.
Arguments AddOrgUser {W} _ _ _ _ _.
Arguments UpdateOrgUser {W} _ _ _ _ _.
Arguments RemoveOrgUser {W} _ _ _ _.

(** The same client with another roster query. *)
Definition with_OrgUsers {W} (q : Z -> W -> list OrgUser * option error)
  (c : Client W) : Client W :=
  {| Users := Users c; OrgUsers := q; AddOrgUser := AddOrgUser c;
     UpdateOrgUser := UpdateOrgUser c; RemoveOrgUser := RemoveOrgUser c |}.

(** The three mutations of the roster, and the remote calls as they leave
    the provider. *)
Inductive Mutation :=
| AddOrgUserOp (orgId : Z) (user role : string)
| UpdateOrgUserOp (orgId userId : Z) (role : string)
| RemoveOrgUserOp (orgId userId : Z).

Inductive Call :=
| CallUsers
| CallOrgUsers (orgId : Z)
| CallMutation (m : Mutation).

Abbreviation CallAddOrgUser orgId user role :=
  (CallMutation (AddOrgUserOp orgId user role)).
Abbreviation CallUpdateOrgUser orgId userId role :=
  (CallMutation (UpdateOrgUserOp orgId userId role)).
Abbreviation CallRemoveOrgUser orgId userId :=
  (CallMutation (RemoveOrgUserOp orgId userId)).

Global Instance Mutation_eq_dec : EqDecision Mutation.
Proof. solve_decision. Defined.
Global Instance Call_eq_dec : EqDecision Call.
Proof. solve_decision. Defined.

(** What a run has done so far: the remote state, the calls issued (oldest
    first) and the lines written with [log.Printf]. *)
Record St (W : Type) := mkSt
  { world : W; calls : list Call; logs : list string }.
Arguments mkSt {W} _ _ _.
Arguments world {W} _.
Arguments calls {W} _.
Arguments logs {W} _.

(** Two states that differ in their log only. *)
Definition same_remote {W} (st1 st2 : St W) : Prop :=
  world st1 = world st2 ∧ calls st1 = calls st2.

(** The calls and the log lines a run has added between two states. *)
Definition new_calls {W} (st st' : St W) : list Call :=
  drop (length (calls st)) (calls st').
Definition new_logs {W} (st st' : St W) : list string :=
  drop (length (logs st)) (logs st').

Definition M (W A : Type) : Type := St W -> A * St W.

Definition ret {W A} (a : A) : M W A := fun st => (a, st).
Definition bind {W A B} (m : M W A) (k : A -> M W B) : M W B :=
  fun st => let '(a, st') := m st in k a st'.

Notation "'do' x <- m ; k" := (bind m (fun x => k))
  (at level 10, x name, m at level 100, k at level 200).
Notation "'do' ' p <- m ; k" := (bind m (fun x => let 'p := x in k))
  (at level 10, p pattern, m at level 100, k at level 200).

Definition Printf {W} (line : string) : M W unit :=
  fun st => (tt, mkSt (world st) (calls st) (logs st ++ [line])).

Definition warn_skip (doing user : string) : string :=
  "[WARN] Skipping " +:+ doing +:+ " user '" +:+ user
    +:+ "'. User is not known to Grafana.".

Section Provider.
Context {W : Type}.
Variable client : Client W.
Variable ord : MapOrder.

Definition query {A} (c : Call) (q : W -> A * option error)
  : M W (A * option error) :=
  fun st => (q (world st), mkSt (world st) (calls st ++ [c]) (logs st)).

Definition mutate (c : Call) (f : W -> option error * W)
  : M W (option error) :=
  fun st => let '(e, w) := f (world st) in
            (e, mkSt w (calls st ++ [c]) (logs st)).

Definition api_Users : M W (list User * option error) :=
  query CallUsers (Users client).
Definition api_OrgUsers (orgId : Z) : M W (list OrgUser * option error) :=
  query (CallOrgUsers orgId) (OrgUsers client orgId).

Definition do_call (m : Mutation) : M W (option error) :=
  mutate (CallMutation m)
    match m with
    | AddOrgUserOp orgId user role => AddOrgUser client orgId user role
    | UpdateOrgUserOp orgId userId role =>
        UpdateOrgUser client orgId userId role
    | RemoveOrgUserOp orgId userId => RemoveOrgUser client orgId userId
    end.

(** *** userMap *)
Definition userMap : M W (gmap string Z * option error) :=
  do '(users, err) <- api_Users;
  match err with
  | Some e => ret (∅, Some e)
  | None =>
      ret (foldl (fun m u => <[user_Email u := user_Id u]> m) ∅ users, None)
  end.

(** *** addUsers, updateUsers, removeUsers

    Each loop is written over the sequence its [range] visits. *)
Fixpoint addUsers_loop (orgId : Z) (users : list (string * string))
  (userMap : gmap string Z) : M W (option error) :=
  match users with
  | [] => ret None
  | (user, role) :: rest =>
      match userMap !! user with
      | None =>
          do _ <- Printf (warn_skip "adding" user);
          addUsers_loop orgId rest userMap
      | Some _ =>
          do err <- do_call (AddOrgUserOp orgId user role);
          match err with
          | Some e => ret (Some e)
          | None => addUsers_loop orgId rest userMap
          end
      end
  end.

Definition addUsers (orgId : Z) (users : gmap string string)
  (userMap : gmap string Z) : M W (option error) :=
  addUsers_loop orgId (range ord users) userMap.

Fixpoint updateUsers_loop (orgId : Z) (users : list (string * string))
  (userMap : gmap string Z) : M W (option error) :=
  match users with
  | [] => ret None
  | (user, role) :: rest =>
      match userMap !! user with
      | None =>
          do _ <- Printf (warn_skip "updating" user);
          updateUsers_loop orgId rest userMap
      | Some userId =>
          do err <- do_call (UpdateOrgUserOp orgId userId role);
          match err with
          | Some e => ret (Some e)
          | None => updateUsers_loop orgId rest userMap
          end
      end
  end.

Definition updateUsers (orgId : Z) (users : gmap string string)
  (userMap : gmap string Z) : M W (option error) :=
  updateUsers_loop orgId (range ord users) userMap.

Fixpoint removeUsers (orgId : Z) (users : list string)
  (userMap : gmap string Z) : M W (option error) :=
  match users with
  | [] => ret None
  | user :: rest =>
      match userMap !! user with
      | None =>
          do _ <- Printf (warn_skip "deleting" user);
          removeUsers orgId rest userMap
      | Some userId =>
          do err <- do_call (RemoveOrgUserOp orgId userId);
          match err with
          | Some e => ret (Some e)
          | None => removeUsers orgId rest userMap
          end
      end
  end.

(** *** The three loops as one

    Each loop visits entries in order; an entry gives a call when its
    email resolves and a warning otherwise, and the first call that
    returns an error ends the loop. *)
Fixpoint phase_loop {E} (call_of : E -> option Mutation) (warn : E -> string)
  (l : list E) : M W (option error) :=
  match l with
  | [] => ret None
  | x :: rest =>
      match call_of x with
      | None => do _ <- Printf (warn x); phase_loop call_of warn rest
      | Some c =>
          do err <- do_call c;
          match err with
          | Some e => ret (Some e)
          | None => phase_loop call_of warn rest
          end
      end
  end.

(** Calls issued one after the other, up to the first error. *)
Fixpoint run_calls (cs : list Mutation) : M W (option error) :=
  match cs with
  | [] => ret None
  | c :: rest =>
      do err <- do_call c;
      match err with
      | Some e => ret (Some e)
      | None => run_calls rest
      end
  end.

Definition add_call (orgId : Z) (userMap : gmap string Z)
  (e : string * string) : option Mutation :=
  match userMap !! e.1 with
  | Some _ => Some (AddOrgUserOp orgId e.1 e.2)
  | None => None
  end.
Definition update_call (orgId : Z) (userMap : gmap string Z)
  (e : string * string) : option Mutation :=
  match userMap !! e.1 with
  | Some userId => Some (UpdateOrgUserOp orgId userId e.2)
  | None => None
  end.
Definition remove_call (orgId : Z) (userMap : gmap string Z)
  (user : string) : option Mutation :=
  match userMap !! user with
  | Some userId => Some (RemoveOrgUserOp orgId userId)
  | None => None
  end.

(** The calls the phases of a pass set out to make: those of the entries
    of the diff that resolve in the index, in the order visited. *)
Definition add_attempts (orgId : Z) (um : gmap string Z)
  (add : gmap string string) : list Mutation :=
  omap (add_call orgId um) (range ord add).
Definition update_attempts (orgId : Z) (um : gmap string Z)
  (update : gmap string string) : list Mutation :=
  omap (update_call orgId um) (range ord update).
Definition remove_attempts (orgId : Z) (um : gmap string Z)
  (remove : list string) : list Mutation :=
  omap (remove_call orgId um) remove.

(** The state in which [userMap] leaves a run, and the index it built. *)
Definition after_userMap (st : St W) : St W := snd (userMap st).
Definition index_of (st : St W) : gmap string Z := fst (fst (userMap st)).

(** *** CreateUsers *)
Definition CreateUsers (d : ResourceData) : M W (option error) :=
  let '(_, newUsers) := collectUsers d in
  do '(um, err) <- userMap;
  match err with
  | Some e => ret (Some e)
  | None => addUsers (orgId_of d) newUsers um
  end.

(** *** UpdateUsers

    The values the three phase functions return are not bound. *)
Definition UpdateUsers (d : ResourceData) : M W (option error) :=
  let '(oldUsers, newUsers) := collectUsers d in
  let '(add, update, remove) := userDiff ord oldUsers newUsers in
  let orgId := orgId_of d in
  do '(um, err) <- userMap;
  match err with
  | Some e => ret (Some e)
  | None =>
      do _ <- addUsers orgId add um;
      do _ <- updateUsers orgId update um;
      do _ <- removeUsers orgId remove um;
      ret None
  end.

(** [UpdateUsers] from its third line on, for given mappings and
    organization id. *)
Definition reconcile (oldUsers newUsers : gmap string string) (orgId : Z)
  : M W (option error) :=
  let '(add, update, remove) := userDiff ord oldUsers newUsers in
  do '(um, err) <- userMap;
  match err with
  | Some e => ret (Some e)
  | None =>
      do _ <- addUsers orgId add um;
      do _ <- updateUsers orgId update um;
      do _ <- removeUsers orgId remove um;
      ret None
  end.

(** *** ReadUsers *)
Definition roleMap_step (grafAdmin : string)
  (roleMap : gmap string (list string)) (orgUser : OrgUser)
  : gmap string (list string) :=
  if bool_decide (ou_Login orgUser ≠ grafAdmin)
  then <[ou_Role orgUser :=
           (default [] (roleMap !! ou_Role orgUser) ++ [ou_Email orgUser])]>
         roleMap
  else roleMap.

Definition roleMap_init : gmap string (list string) :=
  <["Admin" := []]> (<["Editor" := []]> (<["Viewer" := []]> ∅)).

(** [fmt.Sprintf("%ss", strings.ToLower(k))] *)
Definition attr_of (k : string) : string := GoStrings.ToLower k +:+ "s".

Definition set_role_lists (roleMap : gmap string (list string))
  (d : ResourceData) : ResourceData :=
  foldl (fun d kv => Set_ (attr_of (fst kv)) (snd kv) d)
    d (range ord roleMap).

Definition ReadUsers (d : ResourceData) : M W (ResourceData * option error) :=
  do '(orgUsers, err) <- api_OrgUsers (orgId_of d);
  match err with
  | Some e => ret (d, Some e)
  | None =>
      let grafAdmin := rd_admin_user d in
      let roleMap := foldl (roleMap_step grafAdmin) roleMap_init orgUsers in
      ret (set_role_lists roleMap d, None)
  end.

End Provider.

(** ** Between two passes

    Terraform refreshes a resource with [Read] and hands the values that
    [Read] set to the next [Update] as the prior values, next to the
    values the configuration declares.  This step is Terraform's, not the
    provider's. *)
Definition next_pass (refreshed : ResourceData)
  (config : gmap string (list string)) : ResourceData :=
  {| rd_id := rd_id refreshed; rd_admin_user := rd_admin_user refreshed;
     rd_old := rd_new refreshed; rd_new := config |}.

(** The mapping the specification calls [fromRoster], in its words:
    entries whose login equals a non-empty [exemptLogin] are filtered out,
    every other entry maps its email to its reported role. *)
Definition fromRoster (roster : list OrgUser) (exemptLogin : string)
  : gmap string string :=
  foldl (fun m u =>
           if bool_decide (exemptLogin ≠ "" ∧ ou_Login u = exemptLogin)
           then m else <[ou_Email u := ou_Role u]> m)
        ∅ roster.

(** ** A small Grafana to run the provider against *)

Record Grafana := mkGrafana
  { g_users : list User;
    g_members : list OrgUser;
    g_users_down : bool;
    g_mutations_down : bool }.

Definition set_members (ms : list OrgUser) (g : Grafana) : Grafana :=
  {| g_users := g_users g; g_members := ms;
     g_users_down := g_users_down g;
     g_mutations_down := g_mutations_down g |}.

Definition server_error : error := "500 Internal Server Error".

Definition fake_mutation (f : Grafana -> option error * Grafana)
  (g : Grafana) : option error * Grafana :=
  if g_mutations_down g then (Some server_error, g) else f g.

Definition fake_client : Client Grafana :=
  {| Users := fun g =>
       if g_users_down g then ([], Some server_error) else (g_users g, None);
     OrgUsers := fun _ g => (g_members g, None);
     AddOrgUser := fun _ email role => fake_mutation (fun g =>
       match list_find (fun u => user_Email u = email) (g_users g) with
       | Some (_, u) =>
           (None, set_members
                    (g_members g ++ [mkOrgUser (user_Id u) email email role]) g)
       | None => (Some "404 Not Found", g)
       end);
     UpdateOrgUser := fun _ userId role => fake_mutation (fun g =>
       (None, set_members
                (map (fun m => if bool_decide (ou_UserId m = userId)
                               then mkOrgUser userId (ou_Email m) (ou_Login m) role
                               else m) (g_members g)) g));
     RemoveOrgUser := fun _ userId => fake_mutation (fun g =>
       (None, set_members
                (filter (fun m => ou_UserId m ≠ userId) (g_members g)) g)) |}.

Definition start (g : Grafana) : St Grafana := mkSt g [] [].

Definition resource (id admin_user : string)
  (old new : list (string * list string)) : ResourceData :=
  {| rd_id := id; rd_admin_user := admin_user;
     rd_old := list_to_map old; rd_new := list_to_map new |}.

(** ** Inputs used in the examples below *)

Module Scenario.

Definition alice := "alice@example.com".
Definition bob := "bob@example.com".
Definition carol := "carol@example.com".
Definition ghost := "ghost@example.com".
Definition root := "admin@localhost".

Definition directory : list User :=
  [mkUser 1 root; mkUser 2 alice; mkUser 3 bob; mkUser 4 carol].

(** A healthy server, one whose user query fails, one whose mutations
    fail; the roster holds the built-in admin only. *)
Definition admin_member : OrgUser := mkOrgUser 1 root "admin" "Admin".
Definition healthy : Grafana := mkGrafana directory [admin_member] false false.
Definition users_down : Grafana := mkGrafana directory [admin_member] true false.
Definition mutations_down : Grafana :=
  mkGrafana directory [admin_member] false true.

(** A roster that has drifted from the state: bob was made an editor
    behind Terraform's back. *)
Definition bob_member : OrgUser := mkOrgUser 3 bob "bob" "Editor".
Definition drifted : Grafana :=
  mkGrafana directory [admin_member; bob_member] false false.

(** Resource data of organization 1. *)
Definition add_alice : ResourceData :=
  resource "1" "admin" [] [("admins", [alice])].
Definition add_alice_carol : ResourceData :=
  resource "1" "admin" [] [("admins", [alice; carol])].
Definition promote_alice_bob : ResourceData :=
  resource "1" "admin" [("viewers", [alice; bob])] [("editors", [alice; bob])].
Definition promote_ghost : ResourceData :=
  resource "1" "admin" [("viewers", [ghost])] [("editors", [ghost])].
Definition drop_bob : ResourceData :=
  resource "1" "admin" [("viewers", [bob])] [].
Definition nothing_declared : ResourceData := resource "1" "admin" [] [].
Definition admin_and_viewer : ResourceData :=
  resource "1" "admin" [] [("admins", [alice]); ("viewers", [alice])].
Definition declares_root : gmap string (list string) :=
  list_to_map [("admins", [root])].
Definition exemption_off : ResourceData := resource "1" "" [] [].

(** Two mappings for the differ. *)
Definition observed_A : gmap string string :=
  list_to_map [(alice, "Editor"); (bob, "Viewer")].
Definition desired_A : gmap string string :=
  list_to_map [(alice, "Admin"); (carol, "Viewer")].

(** The pass that follows a refresh against the healthy server, with a
    configuration that lists the built-in admin. *)
Definition refreshed : ResourceData :=
  fst (fst (ReadUsers fake_client canonical_order nothing_declared
              (start healthy))).
Definition after_refresh : ResourceData := next_pass refreshed declares_root.

End Scenario.

(** ** The organization itself *)

(** [strconv.FormatInt(n, 10)], the other half of [strconv.ParseInt]: the
    decimal digits of [n], most significant first, after a minus sign
    when [n] is negative.  Twenty digits are more than an int64 has. *)
Module GoStrconv.

Definition digit_char (d : Z) : ascii := ascii_of_N (Z.to_N (48 + d)).

Fixpoint format_digits (fuel : nat) (n : Z) (acc : string) : string :=
  match fuel with
  | O => acc
  | S fuel' =>
      let acc' := String (digit_char (n mod 10)) acc in
      if n <? 10 then acc' else format_digits fuel' (n / 10) acc'
  end.

Definition FormatInt (n : Z) : string :=
  if n <? 0 then String "-"%char (format_digits 20 (- n) EmptyString)
  else format_digits 20 n EmptyString.

End GoStrconv.

(** [gapi.Org] *)
Record gapi_Org := mkOrg { org_Id : Z; org_Name : string }.

(** The part of [gapi.Client] that deals with organizations: like
    [Client], a parameter of what follows. *)
Record OrgClient (W : Type) := mkOrgClient
  { NewOrg : string -> W -> option error * W;
    OrgByName : string -> W -> gapi_Org * option error;
    Org : Z -> W -> gapi_Org * option error;
    UpdateOrg : Z -> string -> W -> option error * W;
    DeleteOrg : Z -> W -> option error * W }.
Arguments NewOrg {W} _ _ _.
Arguments OrgByName {W} _ _ _.
Arguments Org {W} _ _ _.
Arguments UpdateOrg {W} _ _ _ _.
Arguments DeleteOrg {W} _ _ _.

(** The remote calls of the resource as a whole: those about the
    organization, and those about its users. *)
Inductive OrgCall :=
| CallNewOrg (name : string)
| CallOrgByName (name : string)
| CallOrg (orgId : Z)
| CallUpdateOrg (orgId : Z) (name : string)
| CallDeleteOrg (orgId : Z)
| CallOfUsers (c : Call).

Global Instance OrgCall_eq_dec : EqDecision OrgCall.
Proof. solve_decision. Defined.

Record OrgSt (W : Type) := mkOrgSt
  { o_world : W; o_calls : list OrgCall; o_logs : list string }.
Arguments mkOrgSt {W} _ _ _.
Arguments o_world {W} _.
Arguments o_calls {W} _.
Arguments o_logs {W} _.

Definition OM (W A : Type) : Type := OrgSt W -> A * OrgSt W.

Definition oret {W A} (a : A) : OM W A := fun s => (a, s).
Definition obind {W A B} (m : OM W A) (k : A -> OM W B) : OM W B :=
  fun s => let '(a, s') := m s in k a s'.

Notation "'odo' x <- m ; k" := (obind m (fun x => k))
  (at level 10, x name, m at level 100, k at level 200).
Notation "'odo' ' p <- m ; k" := (obind m (fun x => let 'p := x in k))
  (at level 10, p pattern, m at level 100, k at level 200).

Definition org_Printf {W} (line : string) : OM W unit :=
  fun s => (tt, mkOrgSt (o_world s) (o_calls s) (o_logs s ++ [line])).

Definition org_query {W A} (c : OrgCall) (q : W -> A * option error)
  : OM W (A * option error) :=
  fun s => (q (o_world s), mkOrgSt (o_world s) (o_calls s ++ [c]) (o_logs s)).

Definition org_mutate {W} (c : OrgCall) (f : W -> option error * W)
  : OM W (option error) :=
  fun s => let '(e, w) := f (o_world s) in
           (e, mkOrgSt w (o_calls s ++ [c]) (o_logs s)).

(** A function on the users of the organization, run as part of one on
    the organization: its calls and its log lines follow those made so
    far. *)
Definition on_users {W A} (m : M W A) : OM W A :=
  fun s =>
    let '(a, st) := m (mkSt (o_world s) [] (o_logs s)) in
    (a, mkOrgSt (world st) (o_calls s ++ (CallOfUsers <$> calls st)) (logs st)).

(** The resource data with the attribute "name", which has a prior and a
    current value like the lists. *)
Record OrgResource := mkOrgResource
  { or_users : ResourceData; or_name_old : string; or_name : string }.

(** [d.SetId(id)] *)
Definition SetId (id : string) (d : OrgResource) : OrgResource :=
  {| or_users := {| rd_id := id; rd_admin_user := rd_admin_user (or_users d);
                    rd_old := rd_old (or_users d);
                    rd_new := rd_new (or_users d) |};
     or_name_old := or_name_old d; or_name := or_name d |}.



(** [d.HasChange("name")] *)
Definition HasChange_name (d : OrgResource) : bool :=
  negb (String.eqb (or_name_old d) (or_name d)).

Definition conflict_message (name : string) : error :=
  "Error: A Grafana Organization with the name '" +:+ name
    +:+ "' already exists.".

Section Organization.
Context {W : Type}.
Variable orgs : OrgClient W.
Variable client : Client W.
Variable ord : MapOrder.

Definition CreateOrganization (d : OrgResource)
  : OM W (OrgResource * option error) :=
  let name := or_name d in
  odo err <- org_mutate (CallNewOrg name) (NewOrg orgs name);
  match err with
  | Some e =>
      if String.eqb e "409 Conflict"
      then oret (d, Some (conflict_message name))
      else
        odo _ <- org_Printf ("[ERROR] creating Grafana organization " +:+ name);
        oret (d, Some e)
  | None =>
      odo '(resp, err) <- org_query (CallOrgByName name) (OrgByName orgs name);
      match err with
      | Some e => oret (d, Some e)
      | None =>
          let d := SetId (GoStrconv.FormatInt (org_Id resp)) d in
          odo r <- on_users (CreateUsers client ord (or_users d));
          oret (d, r)
      end
  end.


Definition UpdateOrganization (d : OrgResource) : OM W (option error) :=
  let orgId := orgId_of (or_users d) in
  let users := on_users (UpdateUsers client ord (or_users d)) in
  if HasChange_name d
  then
    odo _ <- org_Printf ("[ERROR] org name has been updated from "
                           +:+ or_name_old d +:+ " to " +:+ or_name d);
    odo err <- org_mutate (CallUpdateOrg orgId (or_name d))
                 (UpdateOrg orgs orgId (or_name d));
    match err with
    | Some e => oret (Some e)
    | None => users
    end
  else users.

Definition DeleteOrganization (d : OrgResource) : OM W (option error) :=
  let orgId := orgId_of (or_users d) in
  org_mutate (CallDeleteOrg orgId) (DeleteOrg orgs orgId).

Definition ExistsOrganization (d : OrgResource)
  : OM W (bool * option error) :=
  let orgId := orgId_of (or_users d) in
  odo '(_, err) <- org_query (CallOrg orgId) (Org orgs orgId);
  match err with
  | Some e =>
      if String.eqb e "404 Not Found" then oret (false, None)
      else oret (false, Some e)
  | None => oret (true, None)
  end.

End Organization.

(** ** A server with organizations, and more inputs *)

Module Cases.
Import Scenario.

(** Organization 7, "ops", is the only one; the name "taken" is in
    use. *)
Definition fake_orgs : OrgClient Grafana :=
  {| NewOrg := fun name => fake_mutation (fun g =>
       if String.eqb name "taken" then (Some "409 Conflict", g) else (None, g));
     OrgByName := fun name g => (mkOrg 7 name, None);
     Org := fun orgId g =>
       if orgId =? 7 then (mkOrg 7 "ops", None)
       else (mkOrg 0 "", Some "404 Not Found");
     UpdateOrg := fun _ _ => fake_mutation (fun g => (None, g));
     DeleteOrg := fun _ => fake_mutation (fun g => (None, g)) |}.

Definition org_start (g : Grafana) : OrgSt Grafana := mkOrgSt g [] [].

Definition new_ops : OrgResource :=
  mkOrgResource (resource "" "admin" [] [("admins", [alice; ghost])]) "" "ops".

Definition ops_unchanged : ResourceData :=
  resource "7" "admin" [("admins", [alice]); ("viewers", [bob])]
    [("admins", [alice]); ("viewers", [bob])].

Definition ops_reshuffle : ResourceData :=
  resource "7" "admin" [("admins", [alice]); ("viewers", [bob; ghost])]
    [("editors", [alice]); ("viewers", [carol])].



End Cases.

(** * Properties *)

(** ** Traversal orders *)

Section RangeFacts.
Variable ord : MapOrder.
Context {V : Type}.
Implicit Types m : gmap string V.

Lemma range_elem m k v : (k, v) ∈ range ord m ↔ m !! k = Some v.
Proof. rewrite (range_perm ord V m). apply elem_of_map_to_list. Qed.

Lemma range_NoDup_keys m : NoDup (range ord m).*1.
Proof. rewrite (range_perm ord V m). apply NoDup_fst_map_to_list. Qed.

Lemma range_key_elem m k : k ∈ (range ord m).*1 ↔ is_Some (m !! k).
Proof.
  rewrite list_elem_of_fmap. split.
  - intros [[k' v] [-> Hin]]. apply range_elem in Hin. eauto.
  - intros [v Hv]. exists (k, v). split; [done | by apply range_elem].
Qed.

Lemma range_empty : range ord (∅ : gmap string V) = [].
Proof.
  apply Permutation_nil_r. rewrite (range_perm ord V ∅).
  by rewrite map_to_list_empty.
Qed.
End RangeFacts.

(** ** The differ *)

Section DifferFacts.
Variable ord : MapOrder.
Implicit Types oldUsers newUsers : gmap string string.

Lemma key_not_in {A B} (l : list (A * B)) k v : k ∉ l.*1 → (k, v) ∉ l.
Proof. intros Hk Hin. apply Hk. apply list_elem_of_fmap. by exists (k, v). Qed.

(** The first loop, over any sequence of entries with distinct keys. *)
Lemma diff_new_fold oldUsers (l : list (string * string)) :
  NoDup l.*1 →
  ∀ e r,
    (fst (foldl (diff_new_step oldUsers) (∅, ∅) l) !! e = Some r
       ↔ (e, r) ∈ l ∧ oldUsers !! e = None)
    ∧ (snd (foldl (diff_new_step oldUsers) (∅, ∅) l) !! e = Some r
       ↔ (e, r) ∈ l ∧ ∃ r', oldUsers !! e = Some r' ∧ r' ≠ r).
Proof.
  induction l as [| [k v] l IH] using rev_ind; intros Hnd e r.
  - cbn. rewrite !lookup_empty. split; split; try done.
    + intros [Hin _]. by apply elem_of_nil in Hin.
    + intros [Hin _]. by apply elem_of_nil in Hin.
  - rewrite fmap_app in Hnd. apply NoDup_app in Hnd as (Hl & Hfresh & _).
    assert (Hk : k ∉ l.*1).
    { intros Hin. apply (Hfresh k Hin). cbn. apply list_elem_of_here. }
    specialize (IH Hl e r) as [IHa IHu].
    rewrite foldl_app. cbn [foldl].
    remember (foldl (diff_new_step oldUsers) (∅, ∅) l) as acc eqn:Hacc.
    clear Hacc. destruct acc as [a u]. cbn [fst snd] in IHa, IHu.
    unfold diff_new_step.
    assert (Hlast : ∀ r0, (e, r0) ∈ l ++ [(k, v)]
                           ↔ (e, r0) ∈ l ∨ (e = k ∧ r0 = v)).
    { intros r0. rewrite elem_of_app, list_elem_of_singleton.
      split; (intros [?|?]; [by left | right]); [by simplify_eq | naive_solver]. }
    destruct (oldUsers !! k) as [oldRole|] eqn:Hold.
    + case_bool_decide as Hne; cbn [fst snd].
      * split.
        { rewrite IHa, Hlast. split; [naive_solver|].
          intros [[?|[-> ->]] ?]; [done | congruence]. }
        { destruct (decide (e = k)) as [->|Hek].
          - rewrite lookup_insert_eq, Hlast. split.
            + intros [= <-]. split; [by right | eauto].
            + intros [[Hin|[_ ->]] _]; [|done].
              by apply key_not_in with (v := r) in Hk.
          - rewrite lookup_insert_ne by done. rewrite IHu, Hlast.
            naive_solver. }
      * assert (oldRole = v) as -> by (by destruct (decide (oldRole = v))).
        split.
        { rewrite IHa, Hlast. split; [naive_solver|].
          intros [[?|[-> ->]] ?]; [done | congruence]. }
        { rewrite IHu, Hlast. split; [naive_solver|].
          intros [[?|[-> ->]] (r' & Hr' & Hne')]; [eauto | congruence]. }
    + cbn [fst snd]. split.
      * destruct (decide (e = k)) as [->|Hek].
        { rewrite lookup_insert_eq, Hlast. split.
          - intros [= <-]. split; [by right | done].
          - intros [[Hin|[_ ->]] _]; [|done].
            by apply key_not_in with (v := r) in Hk. }
        { rewrite lookup_insert_ne by done. rewrite IHa, Hlast.
          naive_solver. }
      * rewrite IHu, Hlast. split; [naive_solver|].
        intros [[?|[-> ->]] (r' & Hr' & Hne')]; [eauto | congruence].
Qed.

(** The second loop appends, in the order visited, the keys that
    [newUsers] lacks. *)
Lemma diff_old_fold newUsers (l : list (string * string)) (acc : list string) :
  foldl (diff_old_step newUsers) acc l
  = acc ++ (filter (λ e, newUsers !! e.1 = None) l).*1.
Proof.
  revert acc. induction l as [| [k v] l IH]; intros acc; cbn [foldl].
  - by rewrite app_nil_r.
  - rewrite IH. unfold diff_old_step. cbn [fst].
    rewrite filter_cons. cbn [fst].
    destruct (newUsers !! k) eqn:Hk.
    + rewrite decide_False by done. done.
    + rewrite decide_True by done. by rewrite fmap_cons, <- app_assoc.
Qed.

Lemma userDiff_eq oldUsers newUsers :
  userDiff ord oldUsers newUsers
  = (toAdd ord oldUsers newUsers, toUpdate ord oldUsers newUsers,
     toRemove ord oldUsers newUsers).
Proof.
  unfold toAdd, toUpdate, toRemove.
  by destruct (userDiff ord oldUsers newUsers) as [[??]?].
Qed.

Lemma toAdd_lookup oldUsers newUsers e r :
  toAdd ord oldUsers newUsers !! e = Some r
  ↔ newUsers !! e = Some r ∧ oldUsers !! e = None.
Proof.
  unfold toAdd, userDiff.
  pose proof (diff_new_fold oldUsers (range ord newUsers)
                (range_NoDup_keys ord newUsers) e r) as [Ha _].
  destruct (foldl _ _ (range ord newUsers)) as [a u]. cbn in *.
  by rewrite Ha, range_elem.
Qed.

Lemma toUpdate_lookup oldUsers newUsers e r :
  toUpdate ord oldUsers newUsers !! e = Some r
  ↔ newUsers !! e = Some r ∧ ∃ r', oldUsers !! e = Some r' ∧ r' ≠ r.
Proof.
  unfold toUpdate, userDiff.
  pose proof (diff_new_fold oldUsers (range ord newUsers)
                (range_NoDup_keys ord newUsers) e r) as [_ Hu].
  destruct (foldl _ _ (range ord newUsers)) as [a u]. cbn in *.
  by rewrite Hu, range_elem.
Qed.

Lemma toRemove_eq oldUsers newUsers :
  toRemove ord oldUsers newUsers
  = (filter (λ e, newUsers !! e.1 = None) (range ord oldUsers)).*1.
Proof.
  unfold toRemove, userDiff.
  destruct (foldl _ _ (range ord newUsers)) as [a u]. cbn.
  by rewrite diff_old_fold.
Qed.

Lemma toRemove_elem oldUsers newUsers e :
  e ∈ toRemove ord oldUsers newUsers
  ↔ is_Some (oldUsers !! e) ∧ newUsers !! e = None.
Proof.
  rewrite toRemove_eq, list_elem_of_fmap. split.
  - intros [[k v] [-> Hin]]. apply list_elem_of_filter in Hin as [Hn Hin].
    apply range_elem in Hin. cbn in *. eauto.
  - intros [[v Hv] Hn]. exists (e, v). split; [done|].
    apply list_elem_of_filter. split; [done | by apply range_elem].
Qed.

Lemma toRemove_NoDup oldUsers newUsers : NoDup (toRemove ord oldUsers newUsers).
Proof.
  rewrite toRemove_eq.
  eapply sublist_NoDup; [apply (range_NoDup_keys ord oldUsers) |].
  apply fmap_sublist, sublist_filter.
Qed.

End DifferFacts.

Lemma filter_all {A} (P : A → Prop) `{∀ x, Decision (P x)} (l : list A) :
  (∀ x, P x) → filter P l = l.
Proof.
  intros HP. induction l as [|x l IH]; [done|].
  rewrite filter_cons, decide_True by apply HP. by rewrite IH.
Qed.

Lemma filter_none {A} (P : A → Prop) `{∀ x, Decision (P x)} (l : list A) :
  (∀ x, x ∈ l → ¬ P x) → filter P l = [].
Proof.
  intros HP. induction l as [|x l IH]; [done|].
  rewrite filter_cons, decide_False by (apply HP; apply list_elem_of_here).
  apply IH. intros y Hy. apply HP. by apply list_elem_of_further.
Qed.

Section DifferClaims.
Variable ord : MapOrder.
Implicit Types oldUsers newUsers : gmap string string.

Lemma toAdd_None oldUsers newUsers e :
  toAdd ord oldUsers newUsers !! e = None
  ↔ newUsers !! e = None ∨ is_Some (oldUsers !! e).
Proof.
  rewrite eq_None_not_Some. unfold is_Some at 1.
  setoid_rewrite toAdd_lookup. split.
  - intros Hn. destruct (newUsers !! e) as [r|]; [|by left].
    destruct (oldUsers !! e) eqn:Ho; [by right; eauto|].
    exfalso. apply Hn. eauto.
  - intros [Hn|[x Hx]] [r [Hr Ho]]; congruence.
Qed.

Lemma toUpdate_None oldUsers newUsers e :
  toUpdate ord oldUsers newUsers !! e = None
  ↔ newUsers !! e = None ∨ oldUsers !! e = None
    ∨ oldUsers !! e = newUsers !! e.
Proof.
  rewrite eq_None_not_Some. unfold is_Some at 1.
  setoid_rewrite toUpdate_lookup. split.
  - intros Hn. destruct (newUsers !! e) as [r|]; [|by left].
    destruct (oldUsers !! e) as [r'|]; [|by right; left].
    right; right. destruct (decide (r' = r)) as [->|Hne]; [done|].
    exfalso. apply Hn. eauto.
  - intros [Hn|[Hn|Heq]] [r [Hr (r' & Ho & Hne)]]; congruence.
Qed.

(** C1. [userDiff] follows the algorithm of the differ: an email of the
    desired mapping that the observed one lacks goes to [toAdd] with the
    desired role, one present with another role goes to [toUpdate] with
    the desired role, one present with the same role goes nowhere, and
    an email of the observed mapping that the desired one lacks goes to
    [toRemove]; nothing else is in the three results.  With an empty
    desired mapping [toRemove] is the keys of the observed one and the
    two others are empty; with equal mappings all three are empty. *)
Theorem userDiff_algorithm oldUsers newUsers :
  let add := toAdd ord oldUsers newUsers in
  let update := toUpdate ord oldUsers newUsers in
  let remove := toRemove ord oldUsers newUsers in
  userDiff ord oldUsers newUsers = (add, update, remove)
  ∧ (∀ e r, newUsers !! e = Some r →
       match oldUsers !! e with
       | None => add !! e = Some r ∧ update !! e = None ∧ e ∉ remove
       | Some oldRole =>
           if decide (oldRole = r)
           then add !! e = None ∧ update !! e = None ∧ e ∉ remove
           else update !! e = Some r ∧ add !! e = None ∧ e ∉ remove
       end)
  ∧ (∀ e, is_Some (oldUsers !! e) → newUsers !! e = None →
       e ∈ remove ∧ add !! e = None ∧ update !! e = None)
  ∧ (∀ e r, add !! e = Some r ↔ newUsers !! e = Some r ∧ oldUsers !! e = None)
  ∧ (∀ e r, update !! e = Some r
            ↔ newUsers !! e = Some r
              ∧ ∃ oldRole, oldUsers !! e = Some oldRole ∧ oldRole ≠ r)
  ∧ (∀ e, e ∈ remove ↔ is_Some (oldUsers !! e) ∧ newUsers !! e = None)
  ∧ userDiff ord oldUsers ∅ = (∅, ∅, (range ord oldUsers).*1)
  ∧ (range ord oldUsers).*1 ≡ₚ elements (dom oldUsers)
  ∧ userDiff ord oldUsers oldUsers = (∅, ∅, []).
Proof.
  intros add update remove. subst add update remove.
  split; [apply userDiff_eq|].
  split.
  { intros e r Hnew.
    assert (Hrem : e ∉ toRemove ord oldUsers newUsers).
    { rewrite toRemove_elem. intros [_ ?]; congruence. }
    destruct (oldUsers !! e) as [oldRole|] eqn:Hold.
    - case_decide as Heq; subst.
      + split; [|split; [|done]].
        * apply toAdd_None. right. by rewrite Hold.
        * apply toUpdate_None. right; right; congruence.
      + split; [|split; [|done]].
        * apply toUpdate_lookup. eauto.
        * apply toAdd_None. right. by rewrite Hold.
    - split; [|split; [|done]].
      + by apply toAdd_lookup.
      + apply toUpdate_None. by right; left. }
  split.
  { intros e Hold Hnew. split; [by apply toRemove_elem|].
    split; [apply toAdd_None | apply toUpdate_None]; by left. }
  split; [apply toAdd_lookup|].
  split; [apply toUpdate_lookup|].
  split; [apply toRemove_elem|].
  split.
  { rewrite userDiff_eq. f_equal; [f_equal|].
    - apply map_empty. intros e. apply toAdd_None. left. apply lookup_empty.
    - apply map_empty. intros e. apply toUpdate_None. left. apply lookup_empty.
    - rewrite toRemove_eq. f_equal. apply filter_all.
      intros x. apply lookup_empty. }
  split.
  { apply NoDup_Permutation.
    - apply range_NoDup_keys.
    - apply NoDup_elements.
    - intros e. by rewrite range_key_elem, elem_of_elements, elem_of_dom. }
  rewrite userDiff_eq. f_equal; [f_equal|].
  - apply map_empty. intros e. apply toAdd_None.
    destruct (oldUsers !! e); [right; eauto | by left].
  - apply map_empty. intros e. apply toUpdate_None. by right; right.
  - rewrite toRemove_eq.
    rewrite filter_none; [done|].
    intros [k v] Hin. apply range_elem in Hin. cbn. congruence.
Qed.

(** C10. The three results of the differ have disjoint keys: [toAdd]
    lies in desired minus observed, [toUpdate] in their intersection,
    [toRemove] in observed minus desired; no email is in two of them,
    and [toRemove] has no duplicate. *)
Theorem userDiff_disjoint oldUsers newUsers :
  let add := toAdd ord oldUsers newUsers in
  let update := toUpdate ord oldUsers newUsers in
  let remove := toRemove ord oldUsers newUsers in
  dom add ⊆ dom newUsers ∖ dom oldUsers
  ∧ dom update ⊆ dom newUsers ∩ dom oldUsers
  ∧ list_to_set remove ⊆ dom oldUsers ∖ dom newUsers
  ∧ dom add ## dom update
  ∧ dom add ## list_to_set remove
  ∧ dom update ## list_to_set remove
  ∧ NoDup remove.
Proof.
  intros add update remove.
  assert (Ha : dom add ⊆ dom newUsers ∖ dom oldUsers).
  { intros e [r Hr]%elem_of_dom. apply toAdd_lookup in Hr as [Hn Ho].
    apply elem_of_difference. rewrite !elem_of_dom, Hn, Ho.
    split; [eauto | by intros [??]]. }
  assert (Hu : dom update ⊆ dom newUsers ∩ dom oldUsers).
  { intros e [r Hr]%elem_of_dom.
    apply toUpdate_lookup in Hr as [Hn (r' & Ho & _)].
    apply elem_of_intersection. rewrite !elem_of_dom, Hn, Ho. eauto. }
  assert (Hr : list_to_set remove ⊆ dom oldUsers ∖ dom newUsers).
  { intros e He%elem_of_list_to_set. apply toRemove_elem in He as [Ho Hn].
    apply elem_of_difference. rewrite !elem_of_dom, Hn.
    split; [done | by intros [??]]. }
  repeat split; try done.
  - set_solver.
  - set_solver.
  - set_solver.
  - apply toRemove_NoDup.
Qed.

End DifferClaims.

(** ** The desired and the prior mapping *)

Section CollectFacts.

Lemma roleName_of_roles :
  map roleName_of roles = ["Admin"; "Editor"; "Viewer"].
Proof. reflexivity. Qed.

Lemma assign_all_lookup roleName (us : list string)
  (users : gmap string string) e :
  assign_all roleName us users !! e
  = if decide (e ∈ us) then Some roleName else users !! e.
Proof.
  unfold assign_all. revert users.
  induction us as [|u us IH]; intros users; cbn [foldl].
  - rewrite decide_False; [done | apply not_elem_of_nil].
  - rewrite IH. destruct (decide (e ∈ us)) as [Hin|Hnin].
    + rewrite decide_True; [done | by apply list_elem_of_further].
    + destruct (decide (e = u)) as [->|Hne].
      * rewrite lookup_insert_eq.
        rewrite decide_True; [done | apply list_elem_of_here].
      * rewrite lookup_insert_ne by done.
        rewrite decide_False; [done|].
        rewrite elem_of_cons. tauto.
Qed.

Lemma collectUsers_unfold d :
  collectUsers d
  = (assign_all "Viewer" (old_list d "viewers")
       (assign_all "Editor" (old_list d "editors")
          (assign_all "Admin" (old_list d "admins") ∅)),
     assign_all "Viewer" (new_list d "viewers")
       (assign_all "Editor" (new_list d "editors")
          (assign_all "Admin" (new_list d "admins") ∅))).
Proof. reflexivity. Qed.

(** C6. [collectUsers] goes through the lists in the order admins,
    editors, viewers, and an email of several lists gets the role of the
    last list that has it; one listed as admin and as viewer is a
    Viewer. *)
Theorem collectUsers_last_list_wins d :
  let admins := new_list d "admins" in
  let editors := new_list d "editors" in
  let viewers := new_list d "viewers" in
  let newUsers := snd (collectUsers d) in
  roles = ["admins"; "editors"; "viewers"]
  ∧ newUsers
    = assign_all "Viewer" viewers
        (assign_all "Editor" editors (assign_all "Admin" admins ∅))
  ∧ (∀ e, newUsers !! e
          = if decide (e ∈ viewers) then Some "Viewer"
            else if decide (e ∈ editors) then Some "Editor"
            else if decide (e ∈ admins) then Some "Admin"
            else None)
  ∧ (∀ e, e ∈ admins → e ∈ viewers → newUsers !! e = Some "Viewer").
Proof.
  intros admins editors viewers newUsers.
  assert (Hlk : ∀ e, newUsers !! e
          = if decide (e ∈ viewers) then Some "Viewer"
            else if decide (e ∈ editors) then Some "Editor"
            else if decide (e ∈ admins) then Some "Admin"
            else None).
  { intros e. subst newUsers. rewrite collectUsers_unfold. cbn [snd].
    rewrite !assign_all_lookup. by rewrite lookup_empty. }
  split; [done|]. split; [by subst newUsers; rewrite collectUsers_unfold|].
  split; [done|].
  intros e _ Hv. rewrite Hlk. by rewrite decide_True.
Qed.

(** The prior mapping is built the same way from the prior lists. *)
Lemma collectUsers_old_lookup d e :
  fst (collectUsers d) !! e
  = if decide (e ∈ old_list d "viewers") then Some "Viewer"
    else if decide (e ∈ old_list d "editors") then Some "Editor"
    else if decide (e ∈ old_list d "admins") then Some "Admin"
    else None.
Proof.
  rewrite collectUsers_unfold. cbn [fst].
  rewrite !assign_all_lookup. by rewrite lookup_empty.
Qed.

End CollectFacts.

(** ** The phases of a pass *)

Section PhaseFacts.
Context {W : Type}.
Variable client : Client W.
Implicit Types st : St W.

Lemma same_remote_refl st : same_remote st st.
Proof. by split. Qed.

Lemma do_call_calls m st :
  calls (snd (do_call client m st)) = calls st ++ [CallMutation m]
  ∧ logs (snd (do_call client m st)) = logs st.
Proof.
  unfold do_call, mutate.
  by destruct (match m with
               | AddOrgUserOp o u r => AddOrgUser client o u r
               | UpdateOrgUserOp o i r => UpdateOrgUser client o i r
               | RemoveOrgUserOp o i => RemoveOrgUser client o i
               end (world st)).
Qed.

Lemma do_call_same_remote m st1 st2 :
  same_remote st1 st2 →
  fst (do_call client m st1) = fst (do_call client m st2)
  ∧ same_remote (snd (do_call client m st1)) (snd (do_call client m st2)).
Proof.
  intros [Hw Hc]. unfold do_call, mutate. rewrite Hw, Hc.
  by destruct (match m with
               | AddOrgUserOp o u r => AddOrgUser client o u r
               | UpdateOrgUserOp o i r => UpdateOrgUser client o i r
               | RemoveOrgUserOp o i => RemoveOrgUser client o i
               end (world st2)).
Qed.

(** The loops of the source are the generic loop. *)
Lemma addUsers_loop_phase orgId um l st :
  addUsers_loop client orgId l um st
  = phase_loop client (add_call orgId um)
      (λ e, warn_skip "adding" e.1) l st.
Proof.
  revert st. induction l as [|[user role] l IH]; intros st; [done|].
  cbn [addUsers_loop phase_loop]. unfold add_call at 1. cbn [fst snd].
  destruct (um !! user); unfold bind.
  - destruct (do_call _ _ st) as [[e|] st']; [done | apply IH].
  - destruct (Printf _ st). apply IH.
Qed.

Lemma updateUsers_loop_phase orgId um l st :
  updateUsers_loop client orgId l um st
  = phase_loop client (update_call orgId um)
      (λ e, warn_skip "updating" e.1) l st.
Proof.
  revert st. induction l as [|[user role] l IH]; intros st; [done|].
  cbn [updateUsers_loop phase_loop]. unfold update_call at 1. cbn [fst snd].
  destruct (um !! user); unfold bind.
  - destruct (do_call _ _ st) as [[e|] st']; [done | apply IH].
  - destruct (Printf _ st). apply IH.
Qed.

Lemma removeUsers_phase orgId um l st :
  removeUsers client orgId l um st
  = phase_loop client (remove_call orgId um) (warn_skip "deleting") l st.
Proof.
  revert st. induction l as [|user l IH]; intros st; [done|].
  cbn [removeUsers phase_loop]. unfold remove_call at 1.
  destruct (um !! user); unfold bind.
  - destruct (do_call _ _ st) as [[e|] st']; [done | apply IH].
  - destruct (Printf _ st). apply IH.
Qed.

Section Loop.
Context {E : Type}.
Variable call_of : E → option Mutation.
Variable warn : E → string.

(** Towards the remote service, a loop is the run of the calls of its
    resolvable entries. *)
Lemma phase_loop_run l st1 st2 :
  same_remote st1 st2 →
  fst (phase_loop client call_of warn l st1)
  = fst (run_calls client (omap call_of l) st2)
  ∧ same_remote (snd (phase_loop client call_of warn l st1))
                (snd (run_calls client (omap call_of l) st2)).
Proof.
  revert st1 st2. induction l as [|x l IH]; intros st1 st2 Hsame; [done|].
  cbn [phase_loop omap list_omap]. destruct (call_of x) as [m|].
  - cbn [run_calls]. unfold bind.
    destruct (do_call_same_remote m st1 st2 Hsame) as [Hr Hs].
    destruct (do_call client m st1) as [[e|] st1'],
             (do_call client m st2) as [[e'|] st2']; cbn in Hr, Hs;
      try discriminate; [by split | by apply IH].
  - unfold bind, Printf. apply IH. by destruct Hsame.
Qed.

(** What a loop visits: a prefix of its entries, all of them when it
    returns no error and otherwise up to the entry whose call
    failed.  The calls issued are those of the resolvable entries
    visited, the warnings those of the others. *)
Lemma phase_loop_visited l st :
  ∃ visited rest,
    l = visited ++ rest
    ∧ calls (snd (phase_loop client call_of warn l st))
      = calls st ++ (CallMutation <$> omap call_of visited)
    ∧ logs (snd (phase_loop client call_of warn l st))
      = logs st ++ (warn <$> filter (λ x, call_of x = None) visited)
    ∧ match fst (phase_loop client call_of warn l st) with
      | None => rest = []
      | Some e => ∃ before x m,
          visited = before ++ [x] ∧ call_of x = Some m
      end.
Proof.
  revert st. induction l as [|x l IH]; intros st.
  - exists [], []. cbn. by rewrite !app_nil_r.
  - cbn [phase_loop]. destruct (call_of x) as [m|] eqn:Hx.
    + unfold bind. pose proof (do_call_calls m st) as [Hc Hl].
      destruct (do_call client m st) as [[e|] st'] eqn:Hdo; cbn [fst snd] in *.
      * exists [x], l. cbn [omap list_omap]. rewrite Hx, filter_cons.
        rewrite decide_False by congruence. cbn.
        rewrite Hc, Hl, app_nil_r. repeat split; try done.
        by exists [], x, m.
      * destruct (IH st') as (v & r & -> & Hcs & Hls & Hres).
        exists (x :: v), r. cbn [omap list_omap]. rewrite Hx, filter_cons.
        rewrite decide_False by congruence.
        rewrite Hcs, Hls, Hc, Hl. cbn [fmap list_fmap].
        rewrite <- app_assoc. repeat split; try done.
        destruct (fst (phase_loop client call_of warn (v ++ r) st'));
          [|done].
        destruct Hres as (b & y & m' & -> & Hy). by exists (x :: b), y, m'.
    + unfold bind, Printf.
      destruct (IH (mkSt (world st) (calls st) (logs st ++ [warn x])))
        as (v & r & -> & Hcs & Hls & Hres).
      exists (x :: v), r. cbn [omap list_omap]. rewrite Hx, filter_cons.
      rewrite decide_True by done.
      rewrite Hcs, Hls. cbn [fmap list_fmap calls logs].
      rewrite <- app_assoc. repeat split; try done.
      destruct (fst (phase_loop client call_of warn (v ++ r) _)); [|done].
      destruct Hres as (b & y & m' & -> & Hy). by exists (x :: b), y, m'.
Qed.

End Loop.

(** [run_calls]: all the calls when none fails, and nothing after one
    that fails. *)
Lemma run_calls_app cs1 cs2 st :
  run_calls client (cs1 ++ cs2) st
  = match fst (run_calls client cs1 st) with
    | None => run_calls client cs2 (snd (run_calls client cs1 st))
    | Some e => run_calls client cs1 st
    end.
Proof.
  revert st. induction cs1 as [|c cs1 IH]; intros st; [done|].
  cbn [app run_calls]. unfold bind.
  destruct (do_call client c st) as [[e|] st']; [done | apply IH].
Qed.

Lemma run_calls_ok cs st :
  fst (run_calls client cs st) = None →
  calls (snd (run_calls client cs st)) = calls st ++ (CallMutation <$> cs).
Proof.
  revert st. induction cs as [|c cs IH]; intros st.
  - intros _. cbn. by rewrite app_nil_r.
  - cbn [run_calls]. unfold bind.
    pose proof (do_call_calls c st) as [Hc _].
    destruct (do_call client c st) as [[e|] st']; [done|].
    intros Hok. rewrite (IH st' Hok). cbn in Hc. rewrite Hc.
    by rewrite <- app_assoc.
Qed.

Lemma run_calls_stop cs1 c cs2 st e :
  fst (run_calls client cs1 st) = None →
  fst (do_call client c (snd (run_calls client cs1 st))) = Some e →
  fst (run_calls client (cs1 ++ c :: cs2) st) = Some e
  ∧ calls (snd (run_calls client (cs1 ++ c :: cs2) st))
    = calls st ++ (CallMutation <$> cs1) ++ [CallMutation c].
Proof.
  intros Hok Hfail. rewrite run_calls_app, Hok.
  pose proof (run_calls_ok cs1 st Hok) as Hcs.
  cbn [run_calls]. unfold bind.
  pose proof (do_call_calls c (snd (run_calls client cs1 st))) as [Hc _].
  destruct (do_call client c (snd (run_calls client cs1 st)))
    as [[e'|] st']; cbn in Hfail; [|done].
  cbn in *. split; [done|]. by rewrite Hc, Hcs, <- app_assoc.
Qed.

Lemma run_calls_prefix cs st :
  ∃ issued rest,
    cs = issued ++ rest
    ∧ calls (snd (run_calls client cs st))
      = calls st ++ (CallMutation <$> issued).
Proof.
  revert st. induction cs as [|c cs IH]; intros st.
  - exists [], []. cbn. by rewrite app_nil_r.
  - cbn [run_calls]. unfold bind, ret.
    pose proof (do_call_calls c st) as [Hc _].
    destruct (do_call client c st) as [[e|] st']; cbn [fst snd] in *.
    + exists [c], cs. by rewrite Hc.
    + destruct (IH st') as (i & r & -> & Hcs).
      exists (c :: i), r. rewrite Hcs, Hc. cbn [fmap list_fmap].
      by rewrite <- app_assoc.
Qed.

Lemma run_calls_first c cs st :
  ∃ more, calls (snd (run_calls client (c :: cs) st))
          = calls st ++ CallMutation c :: more.
Proof.
  cbn [run_calls]. unfold bind, ret.
  pose proof (do_call_calls c st) as [Hc _].
  destruct (do_call client c st) as [[e|] st']; cbn [fst snd] in *.
  - exists []. by rewrite Hc.
  - destruct (run_calls_prefix cs st') as (i & r & _ & Hcs).
    exists (CallMutation <$> i). by rewrite Hcs, Hc, <- app_assoc.
Qed.

End PhaseFacts.

(** ** A pass *)

Section PassFacts.
Context {W : Type}.
Variable client : Client W.
Variable ord : MapOrder.
Implicit Types st : St W.
Implicit Types d : ResourceData.

Lemma new_calls_app st st' cs :
  calls st' = calls st ++ cs → new_calls st st' = cs.
Proof. unfold new_calls. intros ->. by rewrite drop_app_length. Qed.

Lemma new_logs_app st st' ls :
  logs st' = logs st ++ ls → new_logs st st' = ls.
Proof. unfold new_logs. intros ->. by rewrite drop_app_length. Qed.

Lemma userMap_state st :
  after_userMap client st
  = mkSt (world st) (calls st ++ [CallUsers]) (logs st).
Proof.
  unfold after_userMap, userMap, bind, api_Users, query.
  by destruct (Users client (world st)) as [users [e|]].
Qed.

Lemma userMap_error st :
  snd (fst (userMap client st)) = snd (Users client (world st)).
Proof.
  unfold userMap, bind, api_Users, query.
  by destruct (Users client (world st)) as [users [e|]].
Qed.

Lemma UpdateUsers_reconcile d :
  UpdateUsers client ord d
  = reconcile client ord (fst (collectUsers d)) (snd (collectUsers d))
      (orgId_of d).
Proof. unfold UpdateUsers, reconcile. by destruct (collectUsers d). Qed.

(** A pass whose user query fails. *)
Lemma reconcile_fetch_failure oldUsers newUsers orgId st e :
  snd (Users client (world st)) = Some e →
  reconcile client ord oldUsers newUsers orgId st
  = (Some e, mkSt (world st) (calls st ++ [CallUsers]) (logs st)).
Proof.
  intros Hfail. unfold reconcile.
  destruct (userDiff ord oldUsers newUsers) as [[add update] remove].
  unfold userMap, api_Users, query, bind, ret. cbn beta.
  destruct (Users client (world st)) as [users err]. cbn in Hfail.
  by subst err.
Qed.

(** A pass whose user query succeeds: the three phases, one after the
    other, each from the state the one before left. *)
Lemma reconcile_phases oldUsers newUsers orgId st :
  snd (Users client (world st)) = None →
  let um := index_of client st in
  let s0 := after_userMap client st in
  let sA := snd (addUsers client ord orgId (toAdd ord oldUsers newUsers) um s0) in
  let sU := snd (updateUsers client ord orgId
                   (toUpdate ord oldUsers newUsers) um sA) in
  let sR := snd (removeUsers client orgId
                   (toRemove ord oldUsers newUsers) um sU) in
  reconcile client ord oldUsers newUsers orgId st = (None, sR).
Proof.
  intros Hok um s0 sA sU sR. subst um s0 sA sU sR.
  unfold reconcile, index_of, after_userMap.
  rewrite (userDiff_eq ord oldUsers newUsers).
  unfold bind at 1.
  pose proof (userMap_error st) as Herr. rewrite Hok in Herr.
  destruct (userMap client st) as [[um err] s0]. cbn in Herr. subst err.
  cbn [fst snd]. unfold bind, ret.
  destruct (addUsers client ord orgId _ um s0) as [rA sA]. cbn [snd].
  destruct (updateUsers client ord orgId _ um sA) as [rU sU]. cbn [snd].
  by destruct (removeUsers client orgId _ um sU) as [rR sR].
Qed.

End PassFacts.

Section PassClaims.
Context {W : Type}.
Variable client : Client W.
Variable ord : MapOrder.
Implicit Types st : St W.
Implicit Types d : ResourceData.

(** Towards the remote service, a pass whose user query succeeds is
    the run of the add attempts, then of the update attempts, then of
    the remove attempts. *)
Lemma reconcile_run oldUsers newUsers orgId st :
  snd (Users client (world st)) = None →
  let um := index_of client st in
  let s0 := after_userMap client st in
  let sA := snd (run_calls client
                   (add_attempts ord orgId um (toAdd ord oldUsers newUsers)) s0) in
  let sU := snd (run_calls client
                   (update_attempts ord orgId um
                      (toUpdate ord oldUsers newUsers)) sA) in
  let sR := snd (run_calls client
                   (remove_attempts orgId um
                      (toRemove ord oldUsers newUsers)) sU) in
  fst (reconcile client ord oldUsers newUsers orgId st) = None
  ∧ same_remote (snd (reconcile client ord oldUsers newUsers orgId st)) sR.
Proof.
  intros Hok um s0 sA sU sR.
  rewrite (reconcile_phases client ord oldUsers newUsers orgId st Hok).
  cbn [fst snd]. split; [done|]. fold um s0.
  unfold addUsers, updateUsers.
  rewrite addUsers_loop_phase.
  destruct (phase_loop_run client (add_call orgId um)
              (λ e, warn_skip "adding" e.1)
              (range ord (toAdd ord oldUsers newUsers)) s0 s0
              (same_remote_refl s0)) as [_ HA].
  fold (add_attempts ord orgId um (toAdd ord oldUsers newUsers)) in HA.
  fold sA in HA.
  rewrite updateUsers_loop_phase.
  destruct (phase_loop_run client (update_call orgId um)
              (λ e, warn_skip "updating" e.1)
              (range ord (toUpdate ord oldUsers newUsers)) _ sA HA)
    as [_ HU].
  fold (update_attempts ord orgId um (toUpdate ord oldUsers newUsers)) in HU.
  fold sU in HU.
  rewrite removeUsers_phase.
  destruct (phase_loop_run client (remove_call orgId um)
              (warn_skip "deleting")
              (toRemove ord oldUsers newUsers) _ sU HU) as [_ HR].
  exact HR.
Qed.

(** C8. When the query that builds the identity index fails, the pass
    returns that error, issues no mutation (its only call is the user
    query) and leaves the remote state as it was. *)
Theorem UpdateUsers_fetch_failure d st e :
  snd (Users client (world st)) = Some e →
  let r := UpdateUsers client ord d st in
  fst r = Some e
  ∧ world (snd r) = world st
  ∧ new_calls st (snd r) = [CallUsers]
  ∧ (∀ m, CallMutation m ∉ new_calls st (snd r))
  ∧ logs (snd r) = logs st.
Proof.
  intros Hfail r. subst r.
  rewrite UpdateUsers_reconcile.
  rewrite (reconcile_fetch_failure client ord _ _ _ st e Hfail).
  cbn [fst snd world logs].
  assert (Hc : new_calls st (mkSt (world st) (calls st ++ [CallUsers]) (logs st))
               = [CallUsers]) by by apply new_calls_app.
  rewrite Hc. repeat split; try done.
  intros m Hin. apply list_elem_of_singleton in Hin. discriminate.
Qed.

(** C4, as the code has it.  A call that fails ends its own phase: the
    calls of that phase that come after it are not made.  It does not
    end the pass: the next phase starts whatever the phase before
    returned, and makes its calls up to its own first failure. *)
Theorem UpdateUsers_failure_scope d st :
  snd (Users client (world st)) = None →
  let oldUsers := fst (collectUsers d) in
  let newUsers := snd (collectUsers d) in
  let orgId := orgId_of d in
  let um := index_of client st in
  let adds := add_attempts ord orgId um (toAdd ord oldUsers newUsers) in
  let updates :=
    update_attempts ord orgId um (toUpdate ord oldUsers newUsers) in
  let removes := remove_attempts orgId um (toRemove ord oldUsers newUsers) in
  let s0 := after_userMap client st in
  let sA := snd (run_calls client adds s0) in
  let sU := snd (run_calls client updates sA) in
  let sR := snd (run_calls client removes sU) in
  (fst (UpdateUsers client ord d st) = None
   ∧ same_remote (snd (UpdateUsers client ord d st)) sR)
  ∧ (∀ cs s, fst (run_calls client cs s) = None →
       calls (snd (run_calls client cs s)) = calls s ++ (CallMutation <$> cs))
  ∧ (∀ cs1 c cs2 s err,
       fst (run_calls client cs1 s) = None →
       fst (do_call client c (snd (run_calls client cs1 s))) = Some err →
       fst (run_calls client (cs1 ++ c :: cs2) s) = Some err
       ∧ calls (snd (run_calls client (cs1 ++ c :: cs2) s))
         = calls s ++ (CallMutation <$> cs1) ++ [CallMutation c])
  ∧ (∀ c cs s, ∃ more,
       calls (snd (run_calls client (c :: cs) s))
       = calls s ++ CallMutation c :: more).
Proof.
  intros Hok oldUsers newUsers orgId um adds updates removes s0 sA sU sR.
  split; [|split; [|split]].
  - rewrite UpdateUsers_reconcile.
    apply (reconcile_run oldUsers newUsers orgId st Hok).
  - apply run_calls_ok.
  - apply run_calls_stop.
  - apply run_calls_first.
Qed.

End PassClaims.

Section LoopClaims.
Context {W : Type}.
Variable client : Client W.
Implicit Types st : St W.



End LoopClaims.

Section OrderFacts.

Lemma keyed_filter (l : list (string * string)) e :
  NoDup l.*1 →
  ((e ∉ l.*1) ∧ filter (λ x, x.1 = e) l = [])
  ∨ (∃ r, (e, r) ∈ l ∧ filter (λ x, x.1 = e) l = [(e, r)]).
Proof.
  induction l as [|[k v] l IH]; intros Hnd.
  - left. split; [apply not_elem_of_nil | done].
  - rewrite fmap_cons in Hnd. apply NoDup_cons in Hnd as [Hk Hl].
    rewrite filter_cons. cbn [fst] in *. destruct (IH Hl) as [[Hn Hf]|[r [Hin Hf]]].
    + case_decide as Hke.
      * subst k. right. exists v. rewrite Hf. split; [apply list_elem_of_here | done].
      * left. split; [|done]. rewrite fmap_cons. cbn.
        rewrite not_elem_of_cons. split; [congruence | done].
    + case_decide as Hke.
      * subst k. exfalso. apply Hk. apply list_elem_of_fmap. by exists (e, r).
      * right. exists r. split; [by apply list_elem_of_further | done].
Qed.

Lemma prefix_keys_NoDup (l1 l2 : list (string * string)) :
  NoDup (l1 ++ l2).*1 → NoDup l1.*1.
Proof. rewrite fmap_app. by intros (? & _ & _)%NoDup_app. Qed.

End OrderFacts.

Section OrderClaims.
Context {W : Type}.
Variable client : Client W.
Variable ord : MapOrder.
Implicit Types st : St W.
Implicit Types d : ResourceData.

(** The entries a pass visits: from each of the three results of the
    differ a prefix, the whole of it when the phase returns no error. *)
Lemma reconcile_visited oldUsers newUsers orgId st :
  snd (Users client (world st)) = None →
  let um := index_of client st in
  let add := toAdd ord oldUsers newUsers in
  let update := toUpdate ord oldUsers newUsers in
  let remove := toRemove ord oldUsers newUsers in
  let s0 := after_userMap client st in
  let sA := snd (addUsers client ord orgId add um s0) in
  let rU := updateUsers client ord orgId update um sA in
  ∃ A restA U restU R restR,
    range ord add = A ++ restA
    ∧ range ord update = U ++ restU
    ∧ remove = R ++ restR
    ∧ new_calls st (snd (reconcile client ord oldUsers newUsers orgId st))
      = CallUsers ::
          ((CallMutation <$> omap (add_call orgId um) A)
           ++ (CallMutation <$> omap (update_call orgId um) U)
           ++ (CallMutation <$> omap (remove_call orgId um) R))
    ∧ (fst rU = None → restU = []).
Proof.
  intros Hok um add update remove s0 sA rU.
  rewrite (reconcile_phases client ord oldUsers newUsers orgId st Hok).
  cbn [snd]. fold um add update remove s0 sA. fold rU.
  set (sU := snd rU).
  destruct (phase_loop_visited client (add_call orgId um)
              (λ e, warn_skip "adding" e.1) (range ord add) s0)
    as (A & restA & HA & HcA & _ & _).
  rewrite <- addUsers_loop_phase in HcA. fold (addUsers client ord orgId add um s0) in HcA.
  fold sA in HcA.
  destruct (phase_loop_visited client (update_call orgId um)
              (λ e, warn_skip "updating" e.1) (range ord update) sA)
    as (U & restU & HU & HcU & _ & HresU).
  rewrite <- updateUsers_loop_phase in HcU, HresU.
  fold (updateUsers client ord orgId update um sA) in HcU, HresU.
  fold rU in HcU, HresU. fold sU in HcU.
  destruct (phase_loop_visited client (remove_call orgId um)
              (warn_skip "deleting") remove sU)
    as (R & restR & HR & HcR & _ & _).
  rewrite <- removeUsers_phase in HcR.
  exists A, restA, U, restU, R, restR.
  split; [done|]. split; [done|]. split; [done|]. split.
  - apply new_calls_app. rewrite HcR, HcU, HcA.
    unfold s0. rewrite userMap_state. cbn [calls].
    by rewrite <- !app_assoc.
  - intros Hnone. by rewrite Hnone in HresU.
Qed.

(** C9, as the code has it.  The calls of a pass come in the order of
    its phases: after the user query the calls of the add phase, then
    those of the update phase, then those of the remove phase.  A user
    of both mappings whose role changes has no entry in the add and
    remove phases and one entry in the update phase, with the desired
    role: the pass issues at most one call for it, an [UpdateOrgUser],
    and exactly that one when the update phase returns no error and
    the email resolves. *)
Theorem UpdateUsers_phase_order d st :
  snd (Users client (world st)) = None →
  let oldUsers := fst (collectUsers d) in
  let newUsers := snd (collectUsers d) in
  let orgId := orgId_of d in
  let um := index_of client st in
  let add := toAdd ord oldUsers newUsers in
  let update := toUpdate ord oldUsers newUsers in
  let remove := toRemove ord oldUsers newUsers in
  let sA := snd (addUsers client ord orgId add um (after_userMap client st)) in
  let rU := updateUsers client ord orgId update um sA in
  let issued := new_calls st (snd (UpdateUsers client ord d st)) in
  ∃ A U R,
    A `prefix_of` range ord add
    ∧ U `prefix_of` range ord update
    ∧ R `prefix_of` remove
    ∧ issued
      = CallUsers ::
          ((CallMutation <$> omap (add_call orgId um) A)
           ++ (CallMutation <$> omap (update_call orgId um) U)
           ++ (CallMutation <$> omap (remove_call orgId um) R))
    ∧ (fst rU = None → U = range ord update)
    ∧ ∀ e oldRole role,
        oldUsers !! e = Some oldRole → newUsers !! e = Some role →
        oldRole ≠ role →
        (e ∉ A.*1) ∧ (e ∉ R)
        ∧ (∀ r, CallAddOrgUser orgId e r ∉ issued)
        ∧ (filter (λ x, x.1 = e) U = []
           ∨ filter (λ x, x.1 = e) U = [(e, role)])
        ∧ (fst rU = None →
             filter (λ x, x.1 = e) U = [(e, role)]
             ∧ ∀ userId, um !! e = Some userId →
                 CallUpdateOrgUser orgId userId role ∈ issued).
Proof.
  intros Hok oldUsers newUsers orgId um add update remove sA rU issued.
  subst issued. rewrite UpdateUsers_reconcile.
  fold oldUsers newUsers orgId.
  destruct (reconcile_visited oldUsers newUsers orgId st Hok)
    as (A & restA & U & restU & R & restR & HA & HU & HR & Hcalls & Hall).
  fold um add update remove sA in HA, HU, HR, Hcalls, Hall. fold rU in Hall.
  exists A, U, R.
  split; [by exists restA|]. split; [by exists restU|].
  split; [by exists restR|]. split; [done|].
  assert (HallU : fst rU = None → U = range ord update).
  { intros Hn. rewrite HU, (Hall Hn). by rewrite app_nil_r. }
  split; [done|].
  intros e oldRole role Hold Hnew Hne.
  assert (Hupd : update !! e = Some role).
  { apply toUpdate_lookup. eauto. }
  assert (HnA : e ∉ A.*1).
  { intros Hin. apply list_elem_of_fmap in Hin as [[k v] [-> Hin]].
    assert (Hr : (k, v) ∈ range ord add).
    { rewrite HA. apply elem_of_app. by left. }
    apply range_elem, toAdd_lookup in Hr as [_ Hr].
    cbn [fst] in Hold, Hr. congruence. }
  assert (HnR : e ∉ R).
  { intros Hin.
    assert (Hr : e ∈ remove) by (rewrite HR; apply elem_of_app; by left).
    apply toRemove_elem in Hr as [_ Hr]. congruence. }
  assert (HndU : NoDup U.*1).
  { apply (prefix_keys_NoDup U restU). rewrite <- HU.
    apply range_NoDup_keys. }
  assert (HonlyU : ∀ r, (e, r) ∈ U → r = role).
  { intros r Hin.
    assert (Hr : (e, r) ∈ range ord update).
    { rewrite HU. apply elem_of_app. by left. }
    apply range_elem in Hr. congruence. }
  split; [done|]. split; [done|]. split; [|split].
  - intros r Hin. rewrite Hcalls in Hin.
    apply elem_of_cons in Hin as [Hin|Hin]; [done|].
    rewrite !elem_of_app in Hin. destruct Hin as [Hin|[Hin|Hin]];
      apply list_elem_of_fmap in Hin as [m [Hm Hin]];
      apply list_elem_of_omap in Hin as [x [Hx Hxm]].
    + unfold add_call in Hxm. destruct (um !! x.1); [|done].
      simplify_eq. apply HnA. apply list_elem_of_fmap. by exists x.
    + unfold update_call in Hxm. destruct (um !! x.1); [|done]. by simplify_eq.
    + unfold remove_call in Hxm. destruct (um !! x); [|done]. by simplify_eq.
  - destruct (keyed_filter U e HndU) as [[_ Hf]|[r [Hin Hf]]]; [by left|].
    right. by rewrite Hf, (HonlyU r Hin).
  - intros Hn. specialize (HallU Hn).
    assert (HinU : (e, role) ∈ U).
    { rewrite HallU. by apply range_elem. }
    split.
    + destruct (keyed_filter U e HndU) as [[Hnin _]|[r [Hin Hf]]].
      * exfalso. apply Hnin. apply list_elem_of_fmap. by exists (e, role).
      * by rewrite Hf, (HonlyU r Hin).
    + intros userId Hid. rewrite Hcalls.
      apply list_elem_of_further. rewrite !elem_of_app. right; left.
      apply list_elem_of_fmap. exists (UpdateOrgUserOp orgId userId role).
      split; [done|]. apply list_elem_of_omap. exists (e, role).
      split; [done|]. unfold update_call. cbn. by rewrite Hid.
Qed.

Lemma reconcile_calls_shape oldUsers newUsers orgId st :
  ∃ ms, new_calls st (snd (reconcile client ord oldUsers newUsers orgId st))
        = CallUsers :: (CallMutation <$> ms).
Proof.
  destruct (snd (Users client (world st))) as [e|] eqn:Hq.
  - exists []. rewrite (reconcile_fetch_failure client ord _ _ _ st e Hq).
    by apply new_calls_app.
  - destruct (reconcile_visited oldUsers newUsers orgId st Hq)
      as (A & _ & U & _ & R & _ & _ & _ & _ & Hcalls & _).
    rewrite Hcalls. eexists. by rewrite <- !fmap_app.
Qed.

(** C2, as the code has it.  The observed side of the diff is the
    mapping [collectUsers] builds from the prior values of the three
    lists held in the resource data.  A pass does not query the roster:
    it issues no [OrgUsers] call, and what it does is the same whatever
    that query would return. *)
Theorem UpdateUsers_observed_from_state d st :
  let oldUsers := fst (collectUsers d) in
  let newUsers := snd (collectUsers d) in
  UpdateUsers client ord d = reconcile client ord oldUsers newUsers (orgId_of d)
  ∧ (∀ e, oldUsers !! e
          = if decide (e ∈ old_list d "viewers") then Some "Viewer"
            else if decide (e ∈ old_list d "editors") then Some "Editor"
            else if decide (e ∈ old_list d "admins") then Some "Admin"
            else None)
  ∧ (∀ q, UpdateUsers (with_OrgUsers q client) ord d st
          = UpdateUsers client ord d st)
  ∧ (∀ orgId, CallOrgUsers orgId
              ∉ new_calls st (snd (UpdateUsers client ord d st))).
Proof.
  intros oldUsers newUsers.
  split; [apply UpdateUsers_reconcile|].
  split; [apply collectUsers_old_lookup|].
  split; [done|].
  intros orgId Hin. rewrite UpdateUsers_reconcile in Hin.
  destruct (reconcile_calls_shape oldUsers newUsers (orgId_of d) st)
    as [ms Hms].
  fold oldUsers newUsers in Hin. rewrite Hms in Hin.
  apply elem_of_cons in Hin as [Hin|Hin]; [done|].
  by apply list_elem_of_fmap in Hin as [m [Hm _]].
Qed.

End OrderClaims.

(** ** Reading the roster and the exempt login *)

Section ReadFacts.
Variable ord : MapOrder.
Implicit Types d : ResourceData.
Implicit Types roster : list OrgUser.
Implicit Types roleMap : gmap string (list string).

Lemma attr_of_three role :
  role ∈ three_roles →
  attr_of role ∈ list_attrs
  ∧ ∀ role', role' ∈ three_roles → attr_of role' = attr_of role → role' = role.
Proof.
  unfold three_roles. rewrite !elem_of_cons, elem_of_nil.
  intros [->|[->|[->|[]]]]; (split; [set_solver|]);
    intros role'; rewrite !elem_of_cons, elem_of_nil;
    intros [->|[->|[->|[]]]]; done.
Qed.

(** The role map of [ReadUsers]: every list only grows, by the emails of
    the members whose login is not the exempt one. *)
Lemma roleMap_step_emails grafAdmin roster roleMap key v e :
  foldl (roleMap_step grafAdmin) roleMap roster !! key = Some v →
  e ∈ v →
  (∃ v0, roleMap !! key = Some v0 ∧ e ∈ v0)
  ∨ ∃ u, u ∈ roster ∧ ou_Email u = e ∧ ou_Login u ≠ grafAdmin
         ∧ ou_Role u = key.
Proof.
  revert roleMap. induction roster as [|u roster IH]; intros roleMap Hv He.
  - left. eauto.
  - cbn [foldl] in Hv. destruct (IH _ Hv He) as [(v0 & Hv0 & He0)|(u' & Hu' & ?)].
    + unfold roleMap_step in Hv0. case_bool_decide as Hlogin.
      * destruct (decide (ou_Role u = key)) as [<-|Hk].
        { rewrite lookup_insert_eq in Hv0. simplify_eq.
          apply elem_of_app in He0 as [He0|He0].
          - left. destruct (roleMap !! ou_Role u) as [v1|]; [eauto|].
            by apply elem_of_nil in He0.
          - apply list_elem_of_singleton in He0. right. exists u.
            split; [apply list_elem_of_here | done]. }
        { rewrite lookup_insert_ne in Hv0 by done. left. eauto. }
      * left. eauto.
    + right. exists u'. split; [by apply list_elem_of_further | done].
Qed.

Lemma roleMap_step_grows grafAdmin roster roleMap key v0 :
  roleMap !! key = Some v0 →
  ∃ v, foldl (roleMap_step grafAdmin) roleMap roster !! key = Some v
       ∧ ∀ e, e ∈ v0 → e ∈ v.
Proof.
  revert roleMap v0. induction roster as [|u roster IH]; intros roleMap v0 Hv0.
  - exists v0. eauto.
  - cbn [foldl]. unfold roleMap_step at 2. case_bool_decide as Hlogin.
    + destruct (decide (ou_Role u = key)) as [<-|Hk].
      * destruct (IH (<[ou_Role u := default [] (roleMap !! ou_Role u)
                                     ++ [ou_Email u]]> roleMap)
                    (v0 ++ [ou_Email u])) as (v & Hv & Hsub).
        { rewrite lookup_insert_eq. by rewrite Hv0. }
        exists v. split; [done|]. intros e He. apply Hsub.
        apply elem_of_app. by left.
      * apply IH. by rewrite lookup_insert_ne.
    + by apply IH.
Qed.

Lemma roleMap_step_member grafAdmin roster roleMap u :
  u ∈ roster → ou_Login u ≠ grafAdmin →
  ∃ v, foldl (roleMap_step grafAdmin) roleMap roster !! ou_Role u = Some v
       ∧ ou_Email u ∈ v.
Proof.
  revert roleMap. induction roster as [|u' roster IH]; intros roleMap Hin Hlogin.
  - by apply elem_of_nil in Hin.
  - apply elem_of_cons in Hin as [<-|Hin]; [|by apply IH].
    cbn [foldl]. unfold roleMap_step at 2.
    rewrite bool_decide_eq_true_2 by done.
    destruct (roleMap_step_grows grafAdmin roster
                (<[ou_Role u := default [] (roleMap !! ou_Role u)
                                ++ [ou_Email u]]> roleMap)
                (ou_Role u) _ (lookup_insert_eq _ _ _)) as (v & Hv & Hsub).
    exists v. split; [done|]. apply Hsub.
    apply elem_of_app. right. apply list_elem_of_here.
Qed.

Lemma roleMap_step_keys grafAdmin roster roleMap key :
  is_Some (foldl (roleMap_step grafAdmin) roleMap roster !! key) →
  is_Some (roleMap !! key) ∨ ∃ u, u ∈ roster ∧ ou_Role u = key.
Proof.
  revert roleMap. induction roster as [|u roster IH]; intros roleMap Hk.
  - by left.
  - cbn [foldl] in Hk. destruct (IH _ Hk) as [Hk'|(u' & Hu' & ?)].
    + unfold roleMap_step in Hk'. case_bool_decide; [|by left].
      destruct (decide (ou_Role u = key)) as [<-|Hne].
      * right. exists u. split; [apply list_elem_of_here | done].
      * rewrite lookup_insert_ne in Hk' by done. by left.
    + right. exists u'. split; [by apply list_elem_of_further | done].
Qed.

Lemma roleMap_init_keys key :
  is_Some (roleMap_init !! key) ↔ key ∈ three_roles.
Proof.
  unfold roleMap_init, three_roles.
  rewrite !elem_of_cons, elem_of_nil.
  rewrite !lookup_insert_is_Some, lookup_empty, is_Some_alt. naive_solver.
Qed.

Lemma roleMap_init_values key v : roleMap_init !! key = Some v → v = [].
Proof.
  unfold roleMap_init. rewrite !lookup_insert_Some, lookup_empty.
  naive_solver.
Qed.

(** Writing the lists back with [Set]. *)
Lemma Set_lookup k v d k' :
  rd_new (Set_ k v d) !! k'
  = if bool_decide (k ∈ list_attrs) then <[k := v]> (rd_new d) !! k'
    else rd_new d !! k'.
Proof. unfold Set_. by case_bool_decide. Qed.

Lemma set_lists_covered (l : list (string * list string)) d k :
  k ∈ list_attrs →
  (∃ kv, kv ∈ l ∧ attr_of kv.1 = k) →
  ∃ kv, kv ∈ l ∧ attr_of kv.1 = k
        ∧ rd_new (foldl (λ d kv, Set_ (attr_of kv.1) kv.2 d) d l) !! k
          = Some kv.2.
Proof.
  intros Hk. induction l as [|x l IH] using rev_ind; intros (kv & Hin & Hkv).
  - by apply elem_of_nil in Hin.
  - rewrite foldl_app. cbn [foldl]. rewrite Set_lookup.
    destruct (decide (attr_of x.1 = k)) as [Hx|Hx].
    + exists x. rewrite Hx, bool_decide_eq_true_2, lookup_insert_eq by done.
      split; [|done]. apply elem_of_app. right. apply list_elem_of_here.
    + apply elem_of_app in Hin as [Hin|Hin].
      * destruct IH as (kv' & Hin' & Hkv' & Hlk); [eauto|].
        exists kv'. split; [apply elem_of_app; by left|]. split; [done|].
        case_bool_decide; [|done]. by rewrite lookup_insert_ne.
      * apply list_elem_of_singleton in Hin. by subst.
Qed.

(** The lists [ReadUsers] leaves in the resource data hold emails of
    members whose login is not the exempt one, and no other. *)
Lemma read_lists_sound d roster config k e :
  let roleMap := foldl (roleMap_step (rd_admin_user d)) roleMap_init roster in
  k ∈ list_attrs →
  e ∈ old_list (next_pass (set_role_lists ord roleMap d) config) k →
  ∃ u, u ∈ roster ∧ ou_Email u = e ∧ ou_Login u ≠ rd_admin_user d.
Proof.
  intros roleMap Hk He. unfold old_list, GetChange, next_pass in He.
  cbn [fst rd_old] in He. unfold set_role_lists in He.
  assert (Hcov : ∃ kv, kv ∈ range ord roleMap ∧ attr_of kv.1 = k).
  { assert (Hthree : ∃ role, role ∈ three_roles ∧ attr_of role = k).
    { revert Hk. unfold list_attrs, three_roles.
      rewrite !elem_of_cons, elem_of_nil.
      intros [->|[->|[->|[]]]];
        [exists "Admin" | exists "Editor" | exists "Viewer"];
        (split; [set_solver | done]). }
    destruct Hthree as (role & Hrole & Hattr).
    apply roleMap_init_keys in Hrole as [v0 Hv0].
    destruct (roleMap_step_grows (rd_admin_user d) roster roleMap_init
                role v0 Hv0) as (v & Hv & _).
    exists (role, v). split; [by apply range_elem | done]. }
  destruct (set_lists_covered (range ord roleMap) d k Hk Hcov)
    as ([key v] & Hin & _ & Hlk).
  rewrite Hlk in He. cbn in He. apply range_elem in Hin.
  destruct (roleMap_step_emails _ _ _ _ _ _ Hin He)
    as [(v0 & Hv0 & He0)|(u & Hu & Hemail & Hlogin & _)]; [|eauto].
  apply roleMap_init_values in Hv0. subst v0. by apply elem_of_nil in He0.
Qed.

(** With roles of the enumeration only, every member whose login is
    not the exempt one is in the list of its role. *)
Lemma read_lists_complete d roster config u :
  let roleMap := foldl (roleMap_step (rd_admin_user d)) roleMap_init roster in
  (∀ v, v ∈ roster → ou_Role v ∈ three_roles) →
  u ∈ roster → ou_Login u ≠ rd_admin_user d →
  ou_Email u
  ∈ old_list (next_pass (set_role_lists ord roleMap d) config)
      (attr_of (ou_Role u)).
Proof.
  intros roleMap Hroles Hu Hlogin.
  destruct (attr_of_three (ou_Role u) (Hroles u Hu)) as [Hk Hinj].
  destruct (roleMap_step_member (rd_admin_user d) roster roleMap_init u
              Hu Hlogin) as (v & Hv & He).
  fold roleMap in Hv.
  destruct (set_lists_covered (range ord roleMap) d (attr_of (ou_Role u)) Hk)
    as ([key v'] & Hin & Hattr & Hlk).
  { exists (ou_Role u, v). split; [by apply range_elem | done]. }
  apply range_elem in Hin. cbn [fst snd] in *.
  assert (Hkey : key ∈ three_roles).
  { destruct (roleMap_step_keys (rd_admin_user d) roster roleMap_init key)
      as [Hinit|(u' & Hu' & <-)]; [by eexists | | by apply Hroles].
    by apply roleMap_init_keys. }
  apply (Hinj key Hkey) in Hattr. subst key.
  assert (v' = v) as -> by congruence.
  unfold old_list, GetChange, next_pass. cbn [fst rd_old].
  unfold set_role_lists. by rewrite Hlk.
Qed.

End ReadFacts.

Section ExemptionClaims.
Context {W : Type}.
Variable client : Client W.
Variable ord : MapOrder.
Implicit Types st : St W.
Implicit Types d : ResourceData.

Lemma ReadUsers_lists d st roster :
  OrgUsers client (orgId_of d) (world st) = (roster, None) →
  ReadUsers client ord d st
  = ((set_role_lists ord
        (foldl (roleMap_step (rd_admin_user d)) roleMap_init roster) d, None),
     mkSt (world st) (calls st ++ [CallOrgUsers (orgId_of d)]) (logs st)).
Proof.
  intros Hq. unfold ReadUsers, api_OrgUsers, query, bind, ret. cbn beta.
  by rewrite Hq.
Qed.

(** C5, as the code has it.  [ReadUsers] leaves the members whose login
    is the exempt one out of the lists it sets, so in the pass that
    follows the email of such a member (when no other member carries it)
    is not in the observed mapping, nor in [toUpdate] or [toRemove]; it
    is in [toAdd] exactly when the configuration lists it.  With the
    empty string as exempt login, a member with login "admin" (roles
    being Admin, Editor or Viewer) is in the observed mapping like any
    other and goes to [toRemove] when the configuration does not list
    it. *)
Theorem exempt_login_reconciled d st roster :
  OrgUsers client (orgId_of d) (world st) = (roster, None) →
  let grafAdmin := rd_admin_user d in
  let refreshed := fst (fst (ReadUsers client ord d st)) in
  ∀ config,
    let next := next_pass refreshed config in
    let observed := fst (collectUsers next) in
    let desired := snd (collectUsers next) in
    (∀ u, u ∈ roster → ou_Login u = grafAdmin →
       (∀ v, v ∈ roster → ou_Email v = ou_Email u → ou_Login v = grafAdmin) →
       observed !! ou_Email u = None
       ∧ toUpdate ord observed desired !! ou_Email u = None
       ∧ (ou_Email u ∉ toRemove ord observed desired)
       ∧ toAdd ord observed desired !! ou_Email u = desired !! ou_Email u)
    ∧ (grafAdmin = "" →
       (∀ v, v ∈ roster → ou_Role v ∈ three_roles) →
       ∀ u, u ∈ roster → ou_Login u = "admin" →
         is_Some (observed !! ou_Email u)
         ∧ (desired !! ou_Email u = None →
              ou_Email u ∈ toRemove ord observed desired)).
Proof.
  intros Hq grafAdmin refreshed config next observed desired.
  assert (Href : refreshed
                 = set_role_lists ord
                     (foldl (roleMap_step grafAdmin) roleMap_init roster) d).
  { unfold refreshed. by rewrite (ReadUsers_lists d st roster Hq). }
  split.
  - intros u Hu Hlogin Honly.
    assert (Hobs : observed !! ou_Email u = None).
    { unfold observed. rewrite collectUsers_old_lookup.
      assert (Hnot : ∀ k, k ∈ list_attrs → ou_Email u ∉ old_list next k).
      { intros k Hk Hin. unfold next in Hin. rewrite Href in Hin.
        destruct (read_lists_sound ord d roster config k _ Hk Hin)
          as (v & Hv & Hemail & Hne).
        apply Hne. by apply Honly. }
      rewrite !decide_False; [done | | |]; apply Hnot; set_solver. }
    split; [done|]. split; [|split].
    + apply toUpdate_None. by right; left.
    + rewrite toRemove_elem, Hobs. by intros [[??] _].
    + destruct (desired !! ou_Email u) as [r|] eqn:Hd.
      * by apply toAdd_lookup.
      * apply toAdd_None. by left.
  - intros Hoff Hroles u Hu Hlogin.
    assert (Hne : ou_Login u ≠ rd_admin_user d).
    { fold grafAdmin. rewrite Hoff, Hlogin. done. }
    pose proof (read_lists_complete ord d roster config u Hroles Hu Hne)
      as Hin.
    fold grafAdmin in Hin. rewrite <- Href in Hin. fold next in Hin.
    assert (Hobs : is_Some (observed !! ou_Email u)).
    { unfold observed. rewrite collectUsers_old_lookup.
      pose proof (Hroles u Hu) as Hrole. unfold three_roles in Hrole.
      rewrite !elem_of_cons, elem_of_nil in Hrole.
      repeat case_decide; try by eexists.
      destruct Hrole as [Hr|[Hr|[Hr|[]]]]; rewrite Hr in Hin; done. }
    split; [done|]. intros Hd. by apply toRemove_elem.
Qed.

End ExemptionClaims.

(** ** The claims on concrete inputs *)

Section Concrete.
Import Scenario.

(** The differ on the mappings of scenario A. *)
Lemma userDiff_algorithm_witness :
  desired_A !! carol = Some "Viewer"
  ∧ observed_A !! carol = None
  ∧ toAdd canonical_order observed_A desired_A !! carol = Some "Viewer".
Proof.
  split; [reflexivity|]. split; [reflexivity|].
  pose proof (userDiff_algorithm canonical_order observed_A desired_A) as H.
  cbv zeta in H. destruct H as (_ & H & _).
  specialize (H carol "Viewer" eq_refl).
  change (observed_A !! carol) with (@None string) in H.
  exact (proj1 H).
Defined.

Example userDiff_scenario_A :
  userDiff canonical_order observed_A desired_A
  = ({[carol := "Viewer"]}, {[alice := "Admin"]}, [bob]).
Proof. vm_compute. reflexivity. Qed.

(** Scenario C: listed as admin and as viewer, hence Viewer. *)
Lemma collectUsers_last_list_wins_witness :
  alice ∈ new_list admin_and_viewer "admins"
  ∧ alice ∈ new_list admin_and_viewer "viewers"
  ∧ snd (collectUsers admin_and_viewer) !! alice = Some "Viewer".
Proof.
  assert (Ha : alice ∈ new_list admin_and_viewer "admins") by compute_done.
  assert (Hv : alice ∈ new_list admin_and_viewer "viewers") by compute_done.
  split; [exact Ha|]. split; [exact Hv|].
  pose proof (collectUsers_last_list_wins admin_and_viewer) as H.
  cbv zeta in H. destruct H as (_ & _ & _ & H).
  exact (H alice Ha Hv).
Defined.

Lemma UpdateUsers_fetch_failure_witness :
  snd (Users fake_client (world (start users_down))) = Some server_error
  ∧ fst (UpdateUsers fake_client canonical_order add_alice (start users_down))
    = Some server_error
  ∧ world (snd (UpdateUsers fake_client canonical_order add_alice
                  (start users_down))) = users_down.
Proof.
  split; [reflexivity|].
  pose proof (UpdateUsers_fetch_failure fake_client canonical_order add_alice
                (start users_down) server_error eq_refl) as H.
  cbv zeta in H. destruct H as (Hr & Hw & _). split; [exact Hr | exact Hw].
Defined.

(** C3 on a failing input: the one mutation of the pass returns an
    error and [UpdateUsers] returns none, in each of the three phases;
    [CreateUsers] returns the error of the same add. *)
Theorem UpdateUsers_drops_mutation_errors :
  (calls (snd (UpdateUsers fake_client canonical_order add_alice
                 (start mutations_down)))
   = [CallUsers; CallAddOrgUser 1 alice "Admin"]
   ∧ fst (do_call fake_client (AddOrgUserOp 1 alice "Admin")
            (after_userMap fake_client (start mutations_down)))
     = Some server_error
   ∧ fst (UpdateUsers fake_client canonical_order add_alice
            (start mutations_down)) = None
   ∧ fst (CreateUsers fake_client canonical_order add_alice
            (start mutations_down)) = Some server_error)
  ∧ (calls (snd (UpdateUsers fake_client canonical_order promote_alice_bob
                   (start mutations_down)))
     = [CallUsers; CallUpdateOrgUser 1 2 "Editor"]
     ∧ fst (do_call fake_client (UpdateOrgUserOp 1 2 "Editor")
              (after_userMap fake_client (start mutations_down)))
       = Some server_error
     ∧ fst (UpdateUsers fake_client canonical_order promote_alice_bob
              (start mutations_down)) = None)
  ∧ (calls (snd (UpdateUsers fake_client canonical_order drop_bob
                   (start mutations_down)))
     = [CallUsers; CallRemoveOrgUser 1 3]
     ∧ fst (do_call fake_client (RemoveOrgUserOp 1 3)
              (after_userMap fake_client (start mutations_down)))
       = Some server_error
     ∧ fst (UpdateUsers fake_client canonical_order drop_bob
              (start mutations_down)) = None).
Proof. vm_compute. repeat split; reflexivity. Qed.

(** C4 fails as stated: alice and carol both resolve, the first
    [AddOrgUser] fails, and the other add is never attempted, in either
    order of the traversal. *)
Lemma failed_add_ends_add_phase :
  ¬ (∀ u role,
       toAdd canonical_order (fst (collectUsers add_alice_carol))
         (snd (collectUsers add_alice_carol)) !! u = Some role →
       is_Some (index_of fake_client (start mutations_down) !! u) →
       CallAddOrgUser (orgId_of add_alice_carol) u role
       ∈ calls (snd (UpdateUsers fake_client canonical_order add_alice_carol
                       (start mutations_down))))
  ∧ ¬ (∀ u role,
         toAdd reversed_order (fst (collectUsers add_alice_carol))
           (snd (collectUsers add_alice_carol)) !! u = Some role →
         is_Some (index_of fake_client (start mutations_down) !! u) →
         CallAddOrgUser (orgId_of add_alice_carol) u role
         ∈ calls (snd (UpdateUsers fake_client reversed_order add_alice_carol
                         (start mutations_down)))).
Proof.
  split; intros H.
  - assert (Hn : CallAddOrgUser (orgId_of add_alice_carol) alice "Admin"
                 ∉ calls (snd (UpdateUsers fake_client canonical_order
                                 add_alice_carol (start mutations_down))))
      by compute_done.
    apply Hn, H; [vm_compute; reflexivity | by exists 2].
  - assert (Hn : CallAddOrgUser (orgId_of add_alice_carol) carol "Admin"
                 ∉ calls (snd (UpdateUsers fake_client reversed_order
                                 add_alice_carol (start mutations_down))))
      by compute_done.
    apply Hn, H; [vm_compute; reflexivity | by exists 4].
Qed.

Lemma UpdateUsers_failure_scope_witness :
  snd (Users fake_client (world (start mutations_down))) = None
  ∧ fst (UpdateUsers fake_client canonical_order add_alice_carol
           (start mutations_down)) = None.
Proof.
  split; [reflexivity|].
  exact (proj1 (proj1 (UpdateUsers_failure_scope fake_client canonical_order
                         add_alice_carol (start mutations_down) eq_refl))).
Defined.



(** C9 fails as stated: alice and bob both change role and both resolve;
    the first [UpdateOrgUser] fails and the other user gets no call at
    all.  Nor does a user whose email the index lacks (ghost). *)
Lemma role_change_without_call :
  ¬ (∀ e oldRole role userId,
       fst (collectUsers promote_alice_bob) !! e = Some oldRole →
       snd (collectUsers promote_alice_bob) !! e = Some role →
       oldRole ≠ role →
       index_of fake_client (start mutations_down) !! e = Some userId →
       length (filter
                 (λ c, c = CallUpdateOrgUser (orgId_of promote_alice_bob)
                              userId role)
                 (calls (snd (UpdateUsers fake_client canonical_order
                                promote_alice_bob (start mutations_down)))))
       = 1%nat)
  ∧ fst (collectUsers promote_ghost) !! ghost = Some "Viewer"
  ∧ snd (collectUsers promote_ghost) !! ghost = Some "Editor"
  ∧ calls (snd (UpdateUsers fake_client canonical_order promote_ghost
                  (start healthy))) = [CallUsers].
Proof.
  split; [|vm_compute; repeat split; reflexivity].
  intros H.
  specialize (H bob "Viewer" "Editor" 3).
  assert (Hz : length (filter
                 (λ c, c = CallUpdateOrgUser (orgId_of promote_alice_bob)
                              3 "Editor")
                 (calls (snd (UpdateUsers fake_client canonical_order
                                promote_alice_bob (start mutations_down)))))
               = 0%nat) by (vm_compute; reflexivity).
  rewrite Hz in H. discriminate H; [vm_compute; reflexivity .. | done |].
  vm_compute; reflexivity.
Qed.

Lemma UpdateUsers_phase_order_witness :
  snd (Users fake_client (world (start healthy))) = None
  ∧ ∀ r, CallAddOrgUser (orgId_of promote_alice_bob) alice r
         ∉ new_calls (start healthy)
             (snd (UpdateUsers fake_client canonical_order promote_alice_bob
                     (start healthy))).
Proof.
  split; [reflexivity|].
  destruct (UpdateUsers_phase_order fake_client canonical_order
              promote_alice_bob (start healthy) eq_refl)
    as (A & U & R & _ & _ & _ & _ & _ & H).
  assert (Ho : fst (collectUsers promote_alice_bob) !! alice = Some "Viewer")
    by (vm_compute; reflexivity).
  assert (Hn : snd (collectUsers promote_alice_bob) !! alice = Some "Editor")
    by (vm_compute; reflexivity).
  assert (Hne : "Viewer" ≠ "Editor") by discriminate.
  exact (proj1 (proj2 (proj2 (H alice "Viewer" "Editor" Ho Hn Hne)))).
Defined.

(** C2 fails as stated: bob joined the roster behind the back of the
    state.  The observed mapping of the pass is the empty one of the
    state, not the one a query of the roster gives; the pass makes no
    such query and removes nobody. *)
Lemma observed_is_not_fresh :
  fst (collectUsers nothing_declared)
  ≠ fromRoster
      (fst (OrgUsers fake_client (orgId_of nothing_declared) drifted))
      (rd_admin_user nothing_declared)
  ∧ calls (snd (UpdateUsers fake_client canonical_order nothing_declared
                  (start drifted))) = [CallUsers].
Proof.
  split; [|vm_compute; reflexivity].
  intros H. apply (f_equal (λ m, m !! bob)) in H.
  vm_compute in H. discriminate H.
Qed.

(** C5 fails as stated: the built-in admin, login "admin", is in the
    roster and exempt, the configuration lists its email, and the pass
    after the refresh has it in [toAdd] and calls [AddOrgUser] for
    it. *)
Lemma exempt_login_added :
  admin_member ∈ g_members healthy
  ∧ ou_Login admin_member = rd_admin_user nothing_declared
  ∧ ¬ (toAdd canonical_order (fst (collectUsers after_refresh))
         (snd (collectUsers after_refresh)) !! ou_Email admin_member = None)
  ∧ ¬ (∀ c, c ∈ calls (snd (UpdateUsers fake_client canonical_order
                              after_refresh (start healthy))) →
            c ≠ CallAddOrgUser 1 (ou_Email admin_member) "Admin").
Proof.
  split; [apply list_elem_of_here|]. split; [reflexivity|]. split.
  - intros H. vm_compute in H. discriminate H.
  - intros H.
    apply (H (CallAddOrgUser 1 (ou_Email admin_member) "Admin"));
      [compute_done | reflexivity].
Qed.

Lemma exempt_login_reconciled_witness :
  OrgUsers fake_client (orgId_of nothing_declared) (world (start healthy))
  = (g_members healthy, None)
  ∧ fst (collectUsers after_refresh) !! root = None
  ∧ toAdd canonical_order (fst (collectUsers after_refresh))
      (snd (collectUsers after_refresh)) !! root
    = snd (collectUsers after_refresh) !! root.
Proof.
  split; [reflexivity|].
  pose proof (exempt_login_reconciled fake_client canonical_order
                nothing_declared (start healthy) (g_members healthy)
                eq_refl declares_root) as H.
  cbv zeta in H. destruct H as [H _].
  assert (Hin : admin_member ∈ g_members healthy) by apply list_elem_of_here.
  assert (Honly : ∀ v, v ∈ g_members healthy →
                       ou_Email v = ou_Email admin_member →
                       ou_Login v = rd_admin_user nothing_declared).
  { intros v Hv _. apply list_elem_of_singleton in Hv. by subst v. }
  destruct (H admin_member Hin eq_refl Honly) as (Ho & _ & _ & Ha).
  split; [exact Ho | exact Ha].
Defined.

End Concrete.

(** * Further properties of the code *)

(** ** The differ beyond the algorithm *)

Section DifferExtras.
Implicit Types oldUsers newUsers : gmap string string.

Lemma diff_domains ord oldUsers newUsers :
  dom (toAdd ord oldUsers newUsers) ⊆ dom newUsers ∖ dom oldUsers
  ∧ dom (toUpdate ord oldUsers newUsers) ⊆ dom newUsers ∩ dom oldUsers
  ∧ list_to_set (toRemove ord oldUsers newUsers)
    ⊆@{gset string} dom oldUsers ∖ dom newUsers.
Proof.
  split; [|split].
  - intros e [r Hr]%elem_of_dom. apply toAdd_lookup in Hr as [Hn Ho].
    apply elem_of_difference. rewrite !elem_of_dom, Hn, Ho.
    split; [eauto | by intros [??]].
  - intros e [r Hr]%elem_of_dom.
    apply toUpdate_lookup in Hr as [Hn (r' & Ho & _)].
    apply elem_of_intersection. rewrite !elem_of_dom, Hn, Ho. eauto.
  - intros e He%elem_of_list_to_set. apply toRemove_elem in He as [Ho Hn].
    apply elem_of_difference. rewrite !elem_of_dom, Hn.
    split; [done | by intros [??]].
Qed.

(** The order in which Go happens to visit the two maps does not change
    the diff: [toAdd] and [toUpdate] are the same maps, [toRemove] holds
    the same emails, in another order at most. *)
Theorem userDiff_any_order ord1 ord2 oldUsers newUsers :
  toAdd ord1 oldUsers newUsers = toAdd ord2 oldUsers newUsers
  ∧ toUpdate ord1 oldUsers newUsers = toUpdate ord2 oldUsers newUsers
  ∧ toRemove ord1 oldUsers newUsers ≡ₚ toRemove ord2 oldUsers newUsers.
Proof.
  split; [|split].
  - apply map_eq. intros e. apply option_eq. intros r.
    by rewrite !toAdd_lookup.
  - apply map_eq. intros e. apply option_eq. intros r.
    by rewrite !toUpdate_lookup.
  - apply NoDup_Permutation; [apply toRemove_NoDup .. |].
    intros e. by rewrite !toRemove_elem.
Qed.

(** The diff is complete: the observed mapping, overwritten with
    [toUpdate] and [toAdd] and with the emails of [toRemove] deleted, is
    the desired mapping. *)
Theorem userDiff_reaches_desired ord oldUsers newUsers :
  foldr delete
    (toAdd ord oldUsers newUsers ∪ toUpdate ord oldUsers newUsers ∪ oldUsers)
    (toRemove ord oldUsers newUsers)
  = newUsers.
Proof.
  apply map_eq. intros e.
  destruct (decide (e ∈ toRemove ord oldUsers newUsers)) as [Hr|Hr].
  - rewrite lookup_foldr_delete by done.
    apply toRemove_elem in Hr as [_ Hn]. by rewrite Hn.
  - rewrite lookup_foldr_delete_not_elem_of by done.
    rewrite !lookup_union.
    destruct (newUsers !! e) as [r|] eqn:Hn.
    + destruct (oldUsers !! e) as [r'|] eqn:Ho.
      * assert (Ha : toAdd ord oldUsers newUsers !! e = None).
        { apply toAdd_None. right. by rewrite Ho. }
        rewrite Ha. destruct (decide (r' = r)) as [->|Hne].
        { assert (Hu : toUpdate ord oldUsers newUsers !! e = None).
          { apply toUpdate_None. right; right. congruence. }
          by rewrite Hu. }
        { assert (Hu : toUpdate ord oldUsers newUsers !! e = Some r).
          { apply toUpdate_lookup. eauto. }
          by rewrite Hu. }
      * assert (Ha : toAdd ord oldUsers newUsers !! e = Some r).
        { by apply toAdd_lookup. }
        rewrite Ha. by destruct (toUpdate ord oldUsers newUsers !! e).
    + assert (Ha : toAdd ord oldUsers newUsers !! e = None).
      { apply toAdd_None. by left. }
      assert (Hu : toUpdate ord oldUsers newUsers !! e = None).
      { apply toUpdate_None. by left. }
      rewrite Ha, Hu. destruct (oldUsers !! e) as [r'|] eqn:Ho; [|done].
      exfalso. apply Hr. apply toRemove_elem. eauto.
Qed.

(** The diff is small: it never holds more operations than there are
    emails in the two mappings together, and no operation at all for an
    email that has the same role in both. *)
Theorem userDiff_operation_count ord oldUsers newUsers :
  (size (toAdd ord oldUsers newUsers) + size (toUpdate ord oldUsers newUsers)
   + length (toRemove ord oldUsers newUsers)
   ≤ size (dom oldUsers ∪ dom newUsers))%nat
  ∧ ∀ e, oldUsers !! e = newUsers !! e →
         toAdd ord oldUsers newUsers !! e = None
         ∧ toUpdate ord oldUsers newUsers !! e = None
         ∧ e ∉ toRemove ord oldUsers newUsers.
Proof.
  split.
  - destruct (diff_domains ord oldUsers newUsers) as (Ha & Hu & Hr).
    rewrite <- !size_dom.
    rewrite <- (size_list_to_set (C := gset string)
                  (toRemove ord oldUsers newUsers))
      by apply toRemove_NoDup.
    rewrite <- size_union by set_solver.
    rewrite <- size_union by set_solver.
    apply subseteq_size. set_solver.
  - intros e Heq. split; [|split].
    + apply toAdd_None. destruct (newUsers !! e); [right | by left].
      rewrite Heq. eauto.
    + apply toUpdate_None. by right; right.
    + rewrite toRemove_elem. intros [[r Ho] Hn]. congruence.
Qed.

(** Going back is the mirror image: what one direction adds the other
    removes, and both directions update the same emails. *)
Theorem userDiff_mirror ord1 ord2 oldUsers newUsers :
  list_to_set (toRemove ord1 oldUsers newUsers)
  = dom (toAdd ord2 newUsers oldUsers)
  ∧ dom (toUpdate ord1 oldUsers newUsers)
    = dom (toUpdate ord2 newUsers oldUsers).
Proof.
  split; apply set_eq; intros e.
  - rewrite elem_of_list_to_set, toRemove_elem, elem_of_dom.
    unfold is_Some. setoid_rewrite toAdd_lookup. naive_solver.
  - rewrite !elem_of_dom. unfold is_Some. setoid_rewrite toUpdate_lookup.
    split; intros (r & Hn & r' & Ho & Hne); exists r'; (split; [done|]);
      exists r; split; [done | congruence | done | congruence].
Qed.

End DifferExtras.

(** ** Organization ids as strings *)

Section IdFacts.
Import GoStrings GoStrconv.

Lemma digit_char_spec d :
  0 ≤ d < 10 → is_digit (digit_char d) = true ∧ code (digit_char d) - 48 = d.
Proof.
  intros Hd.
  assert (d = 0 ∨ d = 1 ∨ d = 2 ∨ d = 3 ∨ d = 4 ∨ d = 5 ∨ d = 6 ∨ d = 7
          ∨ d = 8 ∨ d = 9) as Hcases by lia.
  repeat (destruct Hcases as [->|Hcases]; [by vm_compute|]). by subst.
Qed.

Lemma parse_digits_nonneg s : ∀ acc n,
  0 ≤ acc → parse_digits s acc = Some n → 0 ≤ n.
Proof.
  induction s as [|c s IH]; intros acc n Hacc; cbn [parse_digits].
  - intros [= <-]. done.
  - destruct (is_digit c) eqn:Hc; [|done].
    apply IH. unfold is_digit in Hc. apply andb_prop in Hc as [H1 _]. lia.
Qed.

(** Parsing the digits written for [n] in front of [acc] shifts what was
    read so far and adds [n]. *)
Lemma parse_format_digits fuel : ∀ n acc,
  0 ≤ n < 10 ^ Z.of_nat fuel →
  ∃ k, 0 ≤ k ∧ ∀ a, parse_digits (format_digits fuel n acc) a
                    = parse_digits acc (a * 10 ^ k + n).
Proof.
  induction fuel as [|fuel IH]; intros n acc Hn.
  - exists 0. split; [done|]. intros a. cbn [format_digits].
    change (Z.of_nat 0) with 0 in Hn. rewrite Z.pow_0_r in *. f_equal; lia.
  - cbn [format_digits].
    assert (Hmod : 0 ≤ n mod 10 < 10) by (apply Z.mod_pos_bound; lia).
    destruct (digit_char_spec (n mod 10) Hmod) as [Hdig Hval].
    destruct (n <? 10) eqn:Hlt.
    + apply Z.ltb_lt in Hlt. exists 1. split; [lia|]. intros a.
      cbn [parse_digits]. rewrite Hdig, Hval.
      rewrite Z.mod_small by lia. f_equal; lia.
    + apply Z.ltb_ge in Hlt.
      destruct (IH (n / 10) (String (digit_char (n mod 10)) acc))
        as (k & Hk & Hparse).
      { split; [apply Z.div_pos; lia|].
        apply Z.div_lt_upper_bound; [lia|].
        rewrite Nat2Z.inj_succ, Z.pow_succ_r in Hn by lia. lia. }
      exists (k + 1). split; [lia|]. intros a. rewrite Hparse.
      cbn [parse_digits]. rewrite Hdig, Hval. f_equal.
      rewrite Z.pow_add_r by lia.
      pose proof (Z.div_mod n 10 ltac:(lia)). lia.
Qed.

(** What is written starts with a digit. *)
Lemma format_digits_head fuel : ∀ n acc,
  0 ≤ n →
  ∃ d rest, 0 ≤ d < 10
            ∧ format_digits (S fuel) n acc = String (digit_char d) rest.
Proof.
  induction fuel as [|fuel IH]; intros n acc Hn.
  - assert (Hmod : 0 ≤ n mod 10 < 10) by (apply Z.mod_pos_bound; lia).
    cbn [format_digits]. destruct (n <? 10); eauto.
  - assert (Hmod : 0 ≤ n mod 10 < 10) by (apply Z.mod_pos_bound; lia).
    change (format_digits (S (S fuel)) n acc)
      with (let acc' := String (digit_char (n mod 10)) acc in
            if n <? 10 then acc' else format_digits (S fuel) (n / 10) acc').
    cbv zeta. destruct (n <? 10); [eauto|].
    apply IH. apply Z.div_pos; lia.
Qed.

Lemma ParseInt_unsigned d rest :
  0 ≤ d < 10 →
  ParseInt (String (digit_char d) rest)
  = match parse_digits (String (digit_char d) rest) 0 with
    | None => (0, true)
    | Some un => if 2 ^ 63 <=? un then (2 ^ 63 - 1, true) else (un, false)
    end.
Proof.
  intros Hd.
  assert (d = 0 ∨ d = 1 ∨ d = 2 ∨ d = 3 ∨ d = 4 ∨ d = 5 ∨ d = 6 ∨ d = 7
          ∨ d = 8 ∨ d = 9) as Hcases by lia.
  repeat (destruct Hcases as [->|Hcases]; [reflexivity|]). by subst.
Qed.

Lemma ParseInt_FormatInt_aux n :
  - 2 ^ 63 ≤ n < 2 ^ 63 → ParseInt (FormatInt n) = (n, false).
Proof.
  intros Hn. unfold FormatInt. destruct (n <? 0) eqn:Hneg.
  - apply Z.ltb_lt in Hneg.
    destruct (format_digits_head 19 (- n) EmptyString ltac:(lia))
      as (d & rest & Hd & Hhead).
    destruct (parse_format_digits 20 (- n) EmptyString ltac:(lia))
      as (k & _ & Hparse).
    unfold ParseInt. rewrite Hhead. rewrite <- Hhead, Hparse.
    cbn [parse_digits negb andb]. rewrite Z.mul_0_l, Z.add_0_l.
    replace (2 ^ 63 <? - n) with false by (symmetry; apply Z.ltb_ge; lia).
    f_equal. lia.
  - apply Z.ltb_ge in Hneg.
    destruct (format_digits_head 19 n EmptyString Hneg)
      as (d & rest & Hd & Hhead).
    destruct (parse_format_digits 20 n EmptyString ltac:(lia))
      as (k & _ & Hparse).
    rewrite Hhead, (ParseInt_unsigned d rest Hd), <- Hhead, Hparse.
    cbn [parse_digits]. rewrite Z.mul_0_l, Z.add_0_l.
    replace (2 ^ 63 <=? n) with false by (symmetry; apply Z.leb_gt; lia).
    done.
Qed.

(** The id that [CreateOrganization] stores is read back unchanged:
    [ParseInt] undoes [FormatInt] on every int64, without error, and
    what [FormatInt] writes is a sign and digits, never empty. *)
Theorem ParseInt_FormatInt n :
  - 2 ^ 63 ≤ n < 2 ^ 63 →
  ParseInt (FormatInt n) = (n, false)
  ∧ FormatInt n ≠ EmptyString
  ∧ (FormatInt n = String "0" EmptyString ↔ n = 0).
Proof.
  intros Hn. split; [by apply ParseInt_FormatInt_aux|]. split.
  - unfold FormatInt. destruct (n <? 0) eqn:Hneg; [done|].
    apply Z.ltb_ge in Hneg.
    by destruct (format_digits_head 19 n EmptyString Hneg)
      as (d & rest & _ & ->).
  - split; [|by intros ->].
    intros Hz. pose proof (ParseInt_FormatInt_aux n Hn) as Hp.
    rewrite Hz in Hp. vm_compute in Hp. congruence.
Qed.

(** Whatever the id string, the organization id the code goes on with is
    an int64; it is 0 when the string is not a decimal integer. *)
Theorem ParseInt_int64 s :
  - 2 ^ 63 ≤ fst (ParseInt s) ≤ 2 ^ 63 - 1
  ∧ (snd (ParseInt s) = true →
       fst (ParseInt s) = 0 ∨ fst (ParseInt s) = 2 ^ 63 - 1
       ∨ fst (ParseInt s) = - 2 ^ 63).
Proof.
  unfold ParseInt.
  destruct (match s with
            | String "+"%char r => (false, r)
            | String "-"%char r => (true, r)
            | _ => (false, s)
            end) as [neg body].
  destruct body as [|c body]; [cbn; lia|].
  destruct (parse_digits (String c body) 0) as [un|] eqn:Hp; [|cbn; lia].
  pose proof (parse_digits_nonneg _ _ _ (Z.le_refl 0) Hp) as Hun.
  destruct neg; cbn [negb andb].
  - destruct (2 ^ 63 <? un) eqn:Hb; cbn [fst snd]; [lia|].
    apply Z.ltb_ge in Hb. split; [lia | done].
  - destruct (2 ^ 63 <=? un) eqn:Hb; cbn [fst snd]; [lia|].
    apply Z.leb_gt in Hb. split; [lia | done].
Qed.

End IdFacts.

(** ** The mappings and the index *)

Section MappingExtras.
Context {W : Type}.
Variable client : Client W.
Implicit Types st : St W.
Implicit Types d : ResourceData.

Lemma collectUsers_new_lookup d e :
  snd (collectUsers d) !! e
  = if decide (e ∈ new_list d "viewers") then Some "Viewer"
    else if decide (e ∈ new_list d "editors") then Some "Editor"
    else if decide (e ∈ new_list d "admins") then Some "Admin"
    else None.
Proof.
  rewrite collectUsers_unfold. cbn [snd].
  rewrite !assign_all_lookup. by rewrite lookup_empty.
Qed.

(** The keys of the two mappings are the emails of the three lists, prior
    and declared, and nothing else of the resource data; the roles are
    Admin, Editor and Viewer only. *)
Theorem collectUsers_keys_roles d e :
  (is_Some (fst (collectUsers d) !! e)
   ↔ e ∈ old_list d "admins" ∨ e ∈ old_list d "editors"
     ∨ e ∈ old_list d "viewers")
  ∧ (is_Some (snd (collectUsers d) !! e)
     ↔ e ∈ new_list d "admins" ∨ e ∈ new_list d "editors"
       ∨ e ∈ new_list d "viewers")
  ∧ (∀ r, fst (collectUsers d) !! e = Some r ∨ snd (collectUsers d) !! e = Some r
          → r ∈ three_roles).
Proof.
  rewrite collectUsers_old_lookup, collectUsers_new_lookup.
  unfold three_roles. split; [|split].
  - repeat case_decide; rewrite ?is_Some_alt; naive_solver.
  - repeat case_decide; rewrite ?is_Some_alt; naive_solver.
  - intros r. repeat case_decide; intros [[=]|[=]]; subst; set_solver.
Qed.

Lemma index_fold_lookup (users : list User) : ∀ (m : gmap string Z) e,
  foldl (λ m u, <[user_Email u := user_Id u]> m) m users !! e
  = match last (filter (λ u, user_Email u = e) users) with
    | Some u => Some (user_Id u)
    | None => m !! e
    end.
Proof.
  induction users as [|u users IH]; intros m e; [done|].
  cbn [foldl]. rewrite IH, filter_cons.
  destruct (decide (user_Email u = e)) as [<-|Hne].
  - rewrite last_cons, lookup_insert_eq.
    by destruct (last (filter _ users)).
  - by rewrite lookup_insert_ne.
Qed.

(** The identity index maps an email to the id of the last user the
    directory lists with it, and has no entry for an email the directory
    lacks; when the query fails the index is empty. *)
Theorem userMap_index st users err :
  Users client (world st) = (users, err) →
  snd (fst (userMap client st)) = err
  ∧ match err with
    | Some _ => index_of client st = ∅
    | None =>
        ∀ e, index_of client st !! e
             = user_Id <$> last (filter (λ u, user_Email u = e) users)
    end.
Proof.
  intros Hq. unfold index_of, userMap, api_Users, query, bind, ret. cbn beta.
  rewrite Hq. destruct err as [e|]; cbn [fst snd]; [done|].
  split; [done|]. intros e. rewrite index_fold_lookup, lookup_empty.
  by destruct (last _).
Qed.

End MappingExtras.

(** ** Creating and updating the users *)

Section PassExtras.
Context {W : Type}.
Variable client : Client W.
Variable ord : MapOrder.
Implicit Types st : St W.
Implicit Types d : ResourceData.

Lemma CreateUsers_addUsers d st :
  snd (Users client (world st)) = None →
  CreateUsers client ord d st
  = addUsers client ord (orgId_of d) (snd (collectUsers d))
      (index_of client st) (after_userMap client st).
Proof.
  intros Hok. unfold CreateUsers, index_of, after_userMap.
  destruct (collectUsers d) as [oldUsers newUsers]. cbn [snd].
  unfold bind at 1.
  pose proof (userMap_error client st) as Herr. rewrite Hok in Herr.
  destruct (userMap client st) as [[um err] s0]. cbn in Herr. by subst err.
Qed.

Lemma skipped_filter {E} (call_of : E → option Mutation) (P : E → Prop)
  `{∀ x, Decision (P x)} (l : list E) :
  (∀ x, call_of x = None ↔ P x) →
  filter (λ x, call_of x = None) l = filter P l.
Proof. intros HP. apply list_filter_iff. intros x. apply HP. Qed.

Lemma add_call_None orgId (um : gmap string Z) (e : string * string) :
  add_call orgId um e = None ↔ um !! e.1 = None.
Proof. unfold add_call. by destruct (um !! e.1). Qed.

Lemma update_call_None orgId (um : gmap string Z) (e : string * string) :
  update_call orgId um e = None ↔ um !! e.1 = None.
Proof. unfold update_call. by destruct (um !! e.1). Qed.

Lemma remove_call_None orgId (um : gmap string Z) (user : string) :
  remove_call orgId um user = None ↔ um !! user = None.
Proof. unfold remove_call. by destruct (um !! user). Qed.

(** [CreateUsers] reports what goes wrong.  When the user query fails it
    returns that error and does nothing else.  Otherwise it adds the
    users of the declared lists (all of them, not a diff against prior
    values), stops at the first [AddOrgUser] that fails and returns its
    error. *)
Theorem CreateUsers_errors d st :
  let um := index_of client st in
  let s0 := after_userMap client st in
  let adds := add_attempts ord (orgId_of d) um (snd (collectUsers d)) in
  (∀ e, snd (Users client (world st)) = Some e →
        CreateUsers client ord d st
        = (Some e, mkSt (world st) (calls st ++ [CallUsers]) (logs st)))
  ∧ (snd (Users client (world st)) = None →
       fst (CreateUsers client ord d st) = fst (run_calls client adds s0)
       ∧ same_remote (snd (CreateUsers client ord d st))
                     (snd (run_calls client adds s0))
       ∧ ∀ cs1 c cs2 err,
           adds = cs1 ++ c :: cs2 →
           fst (run_calls client cs1 s0) = None →
           fst (do_call client c (snd (run_calls client cs1 s0))) = Some err →
           fst (CreateUsers client ord d st) = Some err
           ∧ new_calls st (snd (CreateUsers client ord d st))
             = CallUsers :: (CallMutation <$> cs1) ++ [CallMutation c]).
Proof.
  intros um s0 adds. split.
  - intros e Hfail. unfold CreateUsers.
    destruct (collectUsers d) as [oldUsers newUsers].
    unfold userMap, api_Users, query, bind, ret. cbn beta.
    destruct (Users client (world st)) as [users err]. cbn in Hfail.
    by subst err.
  - intros Hok. rewrite (CreateUsers_addUsers d st Hok).
    unfold addUsers. rewrite addUsers_loop_phase. fold um s0.
    destruct (phase_loop_run client (add_call (orgId_of d) um)
                (λ e, warn_skip "adding" e.1)
                (range ord (snd (collectUsers d))) s0 s0
                (same_remote_refl s0)) as [Hr Hs].
    fold (add_attempts ord (orgId_of d) um (snd (collectUsers d))) in Hr, Hs.
    fold adds in Hr, Hs.
    split; [done|]. split; [done|].
    intros cs1 c cs2 err Hadds Hbefore Hfail.
    destruct (run_calls_stop client cs1 c cs2 s0 err Hbefore Hfail)
      as [Hres Hcalls].
    rewrite <- Hadds in Hres, Hcalls.
    split; [congruence|].
    apply new_calls_app. destruct Hs as [_ Hc]. rewrite Hc, Hcalls.
    unfold s0. rewrite userMap_state. cbn [calls].
    by rewrite <- app_assoc.
Qed.

(** When [CreateUsers] returns no error, every declared email that
    resolves in the index has had its [AddOrgUser], for the organization
    of the resource and with the role of the last list naming it; every
    other declared email has had its warning; and nothing else was
    called but the user query. *)
Theorem CreateUsers_success d st :
  fst (CreateUsers client ord d st) = None →
  let um := index_of client st in
  let newUsers := snd (collectUsers d) in
  let st' := snd (CreateUsers client ord d st) in
  snd (Users client (world st)) = None
  ∧ new_calls st st'
    = CallUsers
        :: (CallMutation <$> add_attempts ord (orgId_of d) um newUsers)
  ∧ new_logs st st'
    = (λ e, warn_skip "adding" e.1)
        <$> filter (λ e, um !! e.1 = None) (range ord newUsers)
  ∧ (∀ e r, newUsers !! e = Some r → is_Some (um !! e) →
            CallAddOrgUser (orgId_of d) e r ∈ new_calls st st')
  ∧ (∀ e r, newUsers !! e = Some r → um !! e = None →
            warn_skip "adding" e ∈ new_logs st st').
Proof.
  intros Hnone um newUsers st'.
  destruct (snd (Users client (world st))) as [e|] eqn:Hq.
  { exfalso. unfold CreateUsers in Hnone.
    destruct (collectUsers d) as [o n].
    unfold userMap, api_Users, query, bind, ret in Hnone. cbn beta in Hnone.
    destruct (Users client (world st)) as [users err]. cbn in Hq.
    by subst err. }
  split; [done|]. subst st'.
  rewrite (CreateUsers_addUsers d st Hq) in Hnone |- *.
  unfold addUsers in Hnone |- *. rewrite addUsers_loop_phase in Hnone |- *.
  fold um newUsers in Hnone |- *.
  destruct (phase_loop_visited client (add_call (orgId_of d) um)
              (λ e, warn_skip "adding" e.1) (range ord newUsers)
              (after_userMap client st)) as (v & rest & Hl & Hcs & Hls & Hres).
  rewrite Hnone in Hres. subst rest. rewrite app_nil_r in Hl. subst v.
  rewrite (skipped_filter _ (λ e, um !! e.1 = None)) in Hls
    by (intros x; apply add_call_None).
  assert (Hc0 : calls (after_userMap client st) = calls st ++ [CallUsers])
    by by rewrite userMap_state.
  assert (Hl0 : logs (after_userMap client st) = logs st)
    by by rewrite userMap_state.
  rewrite Hc0 in Hcs. rewrite Hl0 in Hls.
  rewrite <- app_assoc in Hcs.
  apply new_calls_app in Hcs. apply new_logs_app in Hls.
  fold (add_attempts ord (orgId_of d) um newUsers) in Hcs.
  split; [done|]. split; [done|]. split.
  - intros e r Hn [userId Hid]. rewrite Hcs.
    apply list_elem_of_further, list_elem_of_fmap.
    exists (AddOrgUserOp (orgId_of d) e r). split; [done|].
    apply list_elem_of_omap. exists (e, r). split; [by apply range_elem|].
    unfold add_call. cbn. by rewrite Hid.
  - intros e r Hn Hid. rewrite Hls. apply list_elem_of_fmap.
    exists (e, r). split; [done|]. apply list_elem_of_filter.
    split; [done | by apply range_elem].
Qed.

Lemma UpdateUsers_returns d st :
  fst (UpdateUsers client ord d st) = snd (Users client (world st)).
Proof.
  rewrite UpdateUsers_reconcile.
  destruct (snd (Users client (world st))) as [e|] eqn:Hq.
  - by rewrite (reconcile_fetch_failure client ord _ _ _ st e Hq).
  - by rewrite (reconcile_phases client ord _ _ _ st Hq).
Qed.

(** [UpdateUsers] returns an error exactly when the user query fails,
    and then the error of that query: what the add, update and remove
    calls return never reaches its caller. *)
Theorem UpdateUsers_result d st :
  fst (UpdateUsers client ord d st) = snd (Users client (world st))
  ∧ (∀ m err, CallMutation m ∈ new_calls st (snd (UpdateUsers client ord d st)) →
              fst (UpdateUsers client ord d st) = Some err → False).
Proof.
  split; [apply UpdateUsers_returns|].
  intros m err Hin Hres. rewrite UpdateUsers_returns in Hres.
  rewrite UpdateUsers_reconcile in Hin.
  rewrite (reconcile_fetch_failure client ord _ _ _ st err Hres) in Hin.
  rewrite (new_calls_app st _ [CallUsers]) in Hin by done.
  by apply list_elem_of_singleton in Hin.
Qed.

Lemma userDiff_same (m : gmap string string) :
  toAdd ord m m = ∅ ∧ toUpdate ord m m = ∅ ∧ toRemove ord m m = [].
Proof.
  split; [|split].
  - apply map_empty. intros e. apply toAdd_None.
    destruct (m !! e); [right; eauto | by left].
  - apply map_empty. intros e. apply toUpdate_None. by right; right.
  - rewrite toRemove_eq. rewrite filter_none; [done|].
    intros [k v] Hin. apply range_elem in Hin. cbn. congruence.
Qed.

(** A pass over resource data whose three lists are as they were makes
    no change: its only call is the user query, it logs nothing and
    leaves the remote state alone. *)
Theorem UpdateUsers_unchanged_lists d st :
  (∀ k, k ∈ list_attrs → old_list d k = new_list d k) →
  snd (UpdateUsers client ord d st)
  = mkSt (world st) (calls st ++ [CallUsers]) (logs st).
Proof.
  intros Hsame.
  assert (Heq : fst (collectUsers d) = snd (collectUsers d)).
  { rewrite collectUsers_unfold. cbn [fst snd].
    rewrite !Hsame by set_solver. done. }
  rewrite UpdateUsers_reconcile, Heq.
  destruct (snd (Users client (world st))) as [e|] eqn:Hq.
  - by rewrite (reconcile_fetch_failure client ord _ _ _ st e Hq).
  - rewrite (reconcile_phases client ord _ _ _ st Hq). cbn [snd].
    destruct (userDiff_same (snd (collectUsers d))) as (-> & -> & ->).
    unfold addUsers, updateUsers. rewrite range_empty. cbn.
    apply userMap_state.
Qed.

(** When none of its calls fails, a pass makes all of them: the user
    query, then the add, the update and the remove of every entry of
    the diff that resolves, and one warning for every entry that does
    not, phase after phase. *)
Theorem UpdateUsers_all_succeed d st :
  snd (Users client (world st)) = None →
  let oldUsers := fst (collectUsers d) in
  let newUsers := snd (collectUsers d) in
  let orgId := orgId_of d in
  let um := index_of client st in
  let add := toAdd ord oldUsers newUsers in
  let update := toUpdate ord oldUsers newUsers in
  let remove := toRemove ord oldUsers newUsers in
  let adds := add_attempts ord orgId um add in
  let updates := update_attempts ord orgId um update in
  let removes := remove_attempts orgId um remove in
  let s0 := after_userMap client st in
  let sA := snd (run_calls client adds s0) in
  let sU := snd (run_calls client updates sA) in
  fst (run_calls client adds s0) = None →
  fst (run_calls client updates sA) = None →
  fst (run_calls client removes sU) = None →
  new_calls st (snd (UpdateUsers client ord d st))
  = CallUsers :: (CallMutation <$> adds ++ updates ++ removes)
  ∧ new_logs st (snd (UpdateUsers client ord d st))
    = ((λ e, warn_skip "adding" e.1)
         <$> filter (λ e, um !! e.1 = None) (range ord add))
      ++ ((λ e, warn_skip "updating" e.1)
            <$> filter (λ e, um !! e.1 = None) (range ord update))
      ++ (warn_skip "deleting" <$> filter (λ u, um !! u = None) remove).
Proof.
  intros Hok oldUsers newUsers orgId um add update remove adds updates
    removes s0 sA sU HrA HrU HrR.
  rewrite UpdateUsers_reconcile. fold oldUsers newUsers orgId.
  rewrite (reconcile_phases client ord oldUsers newUsers orgId st Hok).
  cbn [snd]. fold um add update remove s0.
  unfold addUsers, updateUsers.
  rewrite addUsers_loop_phase.
  set (pA := phase_loop client (add_call orgId um)
               (λ e, warn_skip "adding" e.1) (range ord add) s0).
  rewrite updateUsers_loop_phase.
  set (pU := phase_loop client (update_call orgId um)
               (λ e, warn_skip "updating" e.1) (range ord update) (snd pA)).
  rewrite removeUsers_phase.
  set (pR := phase_loop client (remove_call orgId um)
               (warn_skip "deleting") remove (snd pU)).
  destruct (phase_loop_run client (add_call orgId um)
              (λ e, warn_skip "adding" e.1) (range ord add) s0 s0
              (same_remote_refl s0)) as [HeA HsA].
  fold pA in HeA, HsA. fold (add_attempts ord orgId um add) in HeA, HsA.
  fold adds in HeA, HsA. fold sA in HsA.
  destruct (phase_loop_run client (update_call orgId um)
              (λ e, warn_skip "updating" e.1) (range ord update)
              (snd pA) sA HsA) as [HeU HsU].
  fold pU in HeU, HsU. fold (update_attempts ord orgId um update) in HeU, HsU.
  fold updates in HeU, HsU. fold sU in HsU.
  destruct (phase_loop_run client (remove_call orgId um)
              (warn_skip "deleting") remove (snd pU) sU HsU) as [HeR _].
  fold pR in HeR. fold (remove_attempts orgId um remove) in HeR.
  fold removes in HeR.
  rewrite HrA in HeA. rewrite HrU in HeU. rewrite HrR in HeR.
  destruct (phase_loop_visited client (add_call orgId um)
              (λ e, warn_skip "adding" e.1) (range ord add) s0)
    as (vA & restA & HlA & HcA & HlogA & HresA).
  fold pA in HcA, HlogA, HresA. rewrite HeA in HresA. subst restA.
  rewrite app_nil_r in HlA. subst vA.
  destruct (phase_loop_visited client (update_call orgId um)
              (λ e, warn_skip "updating" e.1) (range ord update) (snd pA))
    as (vU & restU & HlU & HcU & HlogU & HresU).
  fold pU in HcU, HlogU, HresU. rewrite HeU in HresU. subst restU.
  rewrite app_nil_r in HlU. subst vU.
  destruct (phase_loop_visited client (remove_call orgId um)
              (warn_skip "deleting") remove (snd pU))
    as (vR & restR & HlR & HcR & HlogR & HresR).
  fold pR in HcR, HlogR, HresR. rewrite HeR in HresR. subst restR.
  rewrite app_nil_r in HlR. subst vR.
  rewrite (skipped_filter _ (λ e, um !! e.1 = None)) in HlogA
    by (intros x; apply add_call_None).
  rewrite (skipped_filter _ (λ e, um !! e.1 = None)) in HlogU
    by (intros x; apply update_call_None).
  rewrite (skipped_filter _ (λ u, um !! u = None)) in HlogR
    by (intros x; apply remove_call_None).
  split.
  - apply new_calls_app. rewrite HcR, HcU, HcA.
    unfold s0. rewrite userMap_state. cbn [calls].
    fold adds updates removes.
    by rewrite !fmap_app, <- !app_assoc.
  - apply new_logs_app. rewrite HlogR, HlogU, HlogA.
    unfold s0. rewrite userMap_state. cbn [logs].
    by rewrite <- !app_assoc.
Qed.

End PassExtras.

(** ** What a read reports *)

Section ReadExtras.
Context {W : Type}.
Variable client : Client W.
Variable ord : MapOrder.
Implicit Types st : St W.
Implicit Types d : ResourceData.
Implicit Types roster : list OrgUser.





(** A read that fails changes nothing in the resource data and returns
    the error of the roster query, its only call. *)
Lemma ReadUsers_failure d st roster e :
  OrgUsers client (orgId_of d) (world st) = (roster, Some e) →
  ReadUsers client ord d st
  = ((d, Some e),
     mkSt (world st) (calls st ++ [CallOrgUsers (orgId_of d)]) (logs st)).
Proof.
  intros Hq. unfold ReadUsers, api_OrgUsers, query, bind, ret. cbn beta.
  by rewrite Hq.
Qed.


End ReadExtras.

(** ** The organization *)

Section OrganizationExtras.
Context {W : Type}.
Variable orgs : OrgClient W.
Variable client : Client W.
Variable ord : MapOrder.
Implicit Types s : OrgSt W.
Implicit Types d : OrgResource.

(** The calls of [CreateUsers]: the user query and [AddOrgUser] calls,
    for the organization of the resource data and for declared users. *)
Lemma CreateUsers_calls_shape (u : ResourceData) (st : St W) c :
  c ∈ new_calls st (snd (CreateUsers client ord u st)) →
  c = CallUsers
  ∨ ∃ e role, c = CallAddOrgUser (orgId_of u) e role
              ∧ snd (collectUsers u) !! e = Some role.
Proof.
  destruct (snd (Users client (world st))) as [e|] eqn:Hq.
  - unfold CreateUsers. destruct (collectUsers u) as [o n].
    unfold userMap, api_Users, query, bind, ret. cbn beta.
    destruct (Users client (world st)) as [users err]. cbn in Hq. subst err.
    cbn [snd]. rewrite (new_calls_app st _ [CallUsers]) by done.
    intros Hin%list_elem_of_singleton. by left.
  - rewrite (CreateUsers_addUsers client ord u st Hq).
    unfold addUsers. rewrite addUsers_loop_phase.
    destruct (phase_loop_visited client
                (add_call (orgId_of u) (index_of client st))
                (λ e, warn_skip "adding" e.1)
                (range ord (snd (collectUsers u)))
                (after_userMap client st)) as (v & rest & Hl & Hcs & _ & _).
    assert (Hc0 : calls (after_userMap client st) = calls st ++ [CallUsers])
      by by rewrite userMap_state.
    rewrite Hc0, <- app_assoc in Hcs. apply new_calls_app in Hcs.
    rewrite Hcs. intros Hin. apply elem_of_cons in Hin as [->|Hin]; [by left|].
    right. apply list_elem_of_fmap in Hin as (m & -> & Hm).
    apply list_elem_of_omap in Hm as ([e role] & Hv & Hcall).
    unfold add_call in Hcall. cbn [fst snd] in Hcall.
    destruct (index_of client st !! e); [|done]. simplify_eq.
    exists e, role. split; [done|]. apply (range_elem ord).
    rewrite Hl. apply elem_of_app. by left.
Qed.

(** The users of a new organization are added to that organization: the
    id the service reports is stored in decimal, read back unchanged, and
    every [AddOrgUser] of the creation carries it.  The creation returns
    what [CreateUsers] returns, and calls nothing but [NewOrg],
    [OrgByName], the user query and [AddOrgUser]. *)
Theorem CreateOrganization_adds_to_new_org d s w1 resp :
  NewOrg orgs (or_name d) (o_world s) = (None, w1) →
  OrgByName orgs (or_name d) w1 = (resp, None) →
  - 2 ^ 63 ≤ org_Id resp < 2 ^ 63 →
  let r := CreateOrganization orgs client ord d s in
  let d' := fst (fst r) in
  rd_id (or_users d') = GoStrconv.FormatInt (org_Id resp)
  ∧ orgId_of (or_users d') = org_Id resp
  ∧ snd (fst r)
    = fst (CreateUsers client ord (or_users d') (mkSt w1 [] (o_logs s)))
  ∧ ∃ cs,
      o_calls (snd r)
      = o_calls s
          ++ CallNewOrg (or_name d) :: CallOrgByName (or_name d)
               :: (CallOfUsers <$> cs)
      ∧ ∀ c, c ∈ cs →
             c = CallUsers
             ∨ ∃ e role, c = CallAddOrgUser (org_Id resp) e role
                         ∧ snd (collectUsers (or_users d)) !! e = Some role.
Proof.
  intros Hnew Hby Hid r d'. subst d' r.
  unfold CreateOrganization, obind, org_mutate, org_query, on_users, oret.
  rewrite Hnew. cbn [o_world o_calls o_logs]. rewrite Hby.
  cbn [o_world o_calls o_logs].
  set (u := or_users (SetId (GoStrconv.FormatInt (org_Id resp)) d)).
  assert (Horg : orgId_of u = org_Id resp).
  { unfold orgId_of, u, SetId. cbn [or_users rd_id].
    by rewrite (ParseInt_FormatInt_aux _ Hid). }
  pose proof (CreateUsers_calls_shape u (mkSt w1 [] (o_logs s))) as Hshape.
  destruct (CreateUsers client ord u (mkSt w1 [] (o_logs s)))
    as [res st'] eqn:Hcu.
  cbn [fst snd or_users o_calls] in *. fold u.
  split; [done|]. split; [done|]. split; [by rewrite Hcu|].
  exists (calls st'). split.
  - by rewrite <- !app_assoc.
  - intros c Hc. rewrite <- Horg. apply Hshape.
    unfold new_calls. cbn [calls length]. by rewrite drop_0.
Qed.

(** A creation that fails before the users. A name already in use (the
    service answers "409 Conflict") is reported by an error that names
    it; any other error of [NewOrg], and any error of [OrgByName], is
    returned as it is.  In each case the resource gets no id and no call
    about users is made. *)
Theorem CreateOrganization_failure d s :
  let r := CreateOrganization orgs client ord d s in
  (∀ e w1, NewOrg orgs (or_name d) (o_world s) = (Some e, w1) →
     fst r = (d, Some (if String.eqb e "409 Conflict"
                       then conflict_message (or_name d) else e))
     ∧ o_world (snd r) = w1
     ∧ o_calls (snd r) = o_calls s ++ [CallNewOrg (or_name d)])
  ∧ (∀ e w1 resp,
       NewOrg orgs (or_name d) (o_world s) = (None, w1) →
       OrgByName orgs (or_name d) w1 = (resp, Some e) →
       fst r = (d, Some e)
       ∧ o_world (snd r) = w1
       ∧ o_calls (snd r)
         = o_calls s ++ [CallNewOrg (or_name d); CallOrgByName (or_name d)]).
Proof.
  intros r. subst r.
  unfold CreateOrganization, obind, org_mutate, org_query, org_Printf, oret.
  split.
  - intros e w1 Hnew. rewrite Hnew. by destruct (String.eqb e "409 Conflict").
  - intros e w1 resp Hnew Hby. rewrite Hnew. cbn [o_world o_calls o_logs].
    rewrite Hby. cbn. by rewrite <- app_assoc.
Qed.

(** An update renames only when the name has changed, and a rename that
    fails ends it before any call about users.  The error it returns is
    that of the rename or that of the user query; the errors of the add,
    update and remove calls are never returned. *)
Theorem UpdateOrganization_rename d s :
  let orgId := orgId_of (or_users d) in
  let r := UpdateOrganization orgs client ord d s in
  (or_name_old d = or_name d →
     r = on_users (UpdateUsers client ord (or_users d)) s
     ∧ fst r = snd (Users client (o_world s)))
  ∧ (or_name_old d ≠ or_name d →
     ∀ err w1, UpdateOrg orgs orgId (or_name d) (o_world s) = (err, w1) →
       match err with
       | Some e =>
           fst r = Some e ∧ o_world (snd r) = w1
           ∧ o_calls (snd r)
             = o_calls s ++ [CallUpdateOrg orgId (or_name d)]
       | None =>
           fst r = snd (Users client w1)
           ∧ ∃ cs, o_calls (snd r)
                   = o_calls s ++ CallUpdateOrg orgId (or_name d)
                               :: (CallOfUsers <$> cs)
       end).
Proof.
  intros orgId r. subst r.
  assert (Hres : ∀ s', fst (on_users (UpdateUsers client ord (or_users d)) s')
                       = snd (Users client (o_world s'))).
  { intros s'. unfold on_users.
    pose proof (UpdateUsers_returns client ord (or_users d)
                  (mkSt (o_world s') [] (o_logs s'))) as H.
    by destruct (UpdateUsers client ord (or_users d) _). }
  unfold UpdateOrganization, HasChange_name. split.
  - intros Hsame. rewrite Hsame, String.eqb_refl. cbn [negb]. split; [done|].
    apply Hres.
  - intros Hdiff err w1 Hupd.
    apply String.eqb_neq in Hdiff. rewrite Hdiff. cbn [negb].
    unfold obind, org_Printf, org_mutate. cbn [o_world o_calls o_logs].
    fold orgId. rewrite Hupd. destruct err as [e|].
    + done.
    + split; [by rewrite Hres|].
      unfold on_users. cbn [o_world o_calls o_logs].
      destruct (UpdateUsers client ord (or_users d) _) as [res st'].
      cbn [snd o_calls]. exists (calls st'). by rewrite <- app_assoc.
Qed.


(** [ExistsOrganization] says yes exactly when the query succeeds, takes
    "404 Not Found" for a plain no, and returns any other error; it
    never says yes with an error.  It makes that one query. *)
Theorem ExistsOrganization_answer d s :
  let orgId := orgId_of (or_users d) in
  let r := ExistsOrganization orgs d s in
  (fst (fst r) = true ↔ snd (Org orgs orgId (o_world s)) = None)
  ∧ (∀ e, snd (fst r) = Some e
          ↔ snd (Org orgs orgId (o_world s)) = Some e ∧ e ≠ "404 Not Found")
  ∧ (fst (fst r) = true → snd (fst r) = None)
  ∧ snd r = mkOrgSt (o_world s) (o_calls s ++ [CallOrg orgId]) (o_logs s).
Proof.
  intros orgId r. subst r.
  unfold ExistsOrganization, obind, org_query, oret. fold orgId.
  destruct (Org orgs orgId (o_world s)) as [resp [e|]]; cbn [fst snd].
  - destruct (String.eqb e "404 Not Found") eqn:He; cbn [fst snd].
    + apply String.eqb_eq in He. subst e.
      split; [done|]. split; [|done].
      intros e0. split; [done|]. by intros [[= <-] Hne].
    + apply String.eqb_neq in He.
      split; [done|]. split; [|done].
      intros e0. split; [by intros [= <-] | by intros [? _]].
  - split; [done|]. split; [|done].
    intros e0. split; [done | by intros [? _]].
Qed.

End OrganizationExtras.

(** ** The further properties on concrete inputs *)

Section ConcreteExtras.
Import Scenario Cases.

Lemma ParseInt_FormatInt_witness :
  (- 2 ^ 63 ≤ -42 < 2 ^ 63)
  ∧ GoStrings.ParseInt (GoStrconv.FormatInt (-42)) = (-42, false).
Proof.
  assert (H : - 2 ^ 63 ≤ -42 < 2 ^ 63) by lia.
  split; [exact H | exact (proj1 (ParseInt_FormatInt (-42) H))].
Defined.

Example FormatInt_examples :
  GoStrconv.FormatInt 0 = "0"
  ∧ GoStrconv.FormatInt 1207 = "1207"
  ∧ GoStrconv.FormatInt (-42) = "-42"
  ∧ GoStrconv.FormatInt (2 ^ 63 - 1) = "9223372036854775807"
  ∧ GoStrconv.FormatInt (- 2 ^ 63) = "-9223372036854775808".
Proof. vm_compute. repeat split; reflexivity. Qed.

Lemma userMap_index_witness :
  Users fake_client (world (start healthy)) = (directory, None)
  ∧ index_of fake_client (start healthy) !! bob = Some 3.
Proof.
  split; [reflexivity|].
  pose proof (proj2 (userMap_index fake_client (start healthy) directory None
                       eq_refl) bob) as H.
  cbn beta iota in H. rewrite H. vm_compute. reflexivity.
Defined.

Lemma CreateUsers_success_witness :
  fst (CreateUsers fake_client canonical_order (or_users new_ops)
         (start healthy)) = None
  ∧ CallAddOrgUser (orgId_of (or_users new_ops)) alice "Admin"
    ∈ new_calls (start healthy)
        (snd (CreateUsers fake_client canonical_order (or_users new_ops)
                (start healthy)))
  ∧ warn_skip "adding" ghost
    ∈ new_logs (start healthy)
        (snd (CreateUsers fake_client canonical_order (or_users new_ops)
                (start healthy))).
Proof.
  assert (Hnone : fst (CreateUsers fake_client canonical_order
                         (or_users new_ops) (start healthy)) = None)
    by (vm_compute; reflexivity).
  split; [exact Hnone|].
  pose proof (CreateUsers_success fake_client canonical_order
                (or_users new_ops) (start healthy) Hnone) as H.
  cbv zeta in H. destruct H as (_ & _ & _ & Hadd & Hwarn).
  split.
  - apply Hadd; [vm_compute; reflexivity | by exists 2].
  - apply (Hwarn ghost "Admin"); vm_compute; reflexivity.
Defined.

Lemma UpdateUsers_unchanged_lists_witness :
  (∀ k, k ∈ list_attrs → old_list ops_unchanged k = new_list ops_unchanged k)
  ∧ calls (snd (UpdateUsers fake_client canonical_order ops_unchanged
                  (start healthy))) = [CallUsers].
Proof.
  assert (H : ∀ k, k ∈ list_attrs
                   → old_list ops_unchanged k = new_list ops_unchanged k).
  { intros k Hk. unfold list_attrs in Hk.
    rewrite !elem_of_cons, elem_of_nil in Hk.
    destruct Hk as [->|[->|[->|[]]]]; reflexivity. }
  split; [exact H|].
  by rewrite (UpdateUsers_unchanged_lists fake_client canonical_order
                ops_unchanged (start healthy) H).
Defined.

Lemma UpdateUsers_all_succeed_witness :
  snd (Users fake_client (world (start healthy))) = None
  ∧ new_calls (start healthy)
      (snd (UpdateUsers fake_client canonical_order ops_reshuffle
              (start healthy)))
    = [CallUsers; CallAddOrgUser 7 carol "Viewer";
       CallUpdateOrgUser 7 2 "Editor"; CallRemoveOrgUser 7 3]
  ∧ new_logs (start healthy)
      (snd (UpdateUsers fake_client canonical_order ops_reshuffle
              (start healthy)))
    = [warn_skip "deleting" ghost].
Proof.
  split; [reflexivity|].
  pose proof (UpdateUsers_all_succeed fake_client canonical_order
                ops_reshuffle (start healthy) eq_refl) as H.
  cbv zeta in H.
  do 3 (lapply H; [clear H; intros H | vm_compute; reflexivity]).
  destruct H as [Hc Hl]. split.
  - rewrite Hc. vm_compute. reflexivity.
  - rewrite Hl. vm_compute. reflexivity.
Defined.



Lemma CreateOrganization_adds_to_new_org_witness :
  NewOrg fake_orgs (or_name new_ops) (o_world (org_start healthy))
  = (None, healthy)
  ∧ OrgByName fake_orgs (or_name new_ops) healthy = (mkOrg 7 "ops", None)
  ∧ orgId_of (or_users (fst (fst (CreateOrganization fake_orgs fake_client
                                    canonical_order new_ops
                                    (org_start healthy))))) = 7.
Proof.
  split; [reflexivity|]. split; [reflexivity|].
  assert (Hid : - 2 ^ 63 ≤ org_Id (mkOrg 7 "ops") < 2 ^ 63) by (cbn; lia).
  pose proof (CreateOrganization_adds_to_new_org fake_orgs fake_client
                canonical_order new_ops (org_start healthy) healthy
                (mkOrg 7 "ops") eq_refl eq_refl Hid) as H.
  cbv zeta in H. exact (proj1 (proj2 H)).
Defined.

Example CreateOrganization_run :
  o_calls (snd (CreateOrganization fake_orgs fake_client canonical_order
                  new_ops (org_start healthy)))
  = [CallNewOrg "ops"; CallOrgByName "ops"; CallOfUsers CallUsers;
     CallOfUsers (CallAddOrgUser 7 alice "Admin")]
  ∧ rd_id (or_users (fst (fst (CreateOrganization fake_orgs fake_client
                                 canonical_order new_ops
                                 (org_start healthy))))) = "7".
Proof. vm_compute. split; reflexivity. Qed.

End ConcreteExtras.
